(** * InterSplit: the replicated expense ledger of the Intercom peer

    A shallow embedding of the [ExpenseSplit] class (event validation,
    room store, idempotent merge, balances, settlements, snapshots) and
    of the JavaScript primitives it is written with, followed by the
    properties of the ledger.

    Conventions of the embedding.
    - A JavaScript string is a [string]: a sequence of code units below
      256 (Latin-1).  [trim] and [toLowerCase] are closed on that range.
    - A JavaScript Number holding an integer count of cents is a [Z];
      the arithmetic of the ledger is exact on safe integers
      (magnitude at most 2^53 - 1), which is the range the embedding
      speaks about.
    - A Number met in loosely typed input is a [JsNumber]: NaN, an
      infinity, or the decimal [m * 10^e] that [Number::toString] prints.
    - [Date.now()] is a reading handed to the operation that takes it.
    - [String.prototype.localeCompare] belongs to the host; it is a
      variable of the section that embeds the class.
    - Console output and the broadcast to the side channel do not touch
      the ledger and are left out, and so is [addExpense], which parses a
      decimal amount and draws a random [txId] before it calls
      [addEvent].
    - [list] is [list_events] here, the name being that of a type. *)

From Stdlib Require Import ZArith NArith Ascii String List Lia Permutation.
From stdpp Require Import gmap strings list sorting.

Set Warnings "-register-all".

Local Open Scope string_scope.
Local Open Scope Z_scope.

(** ** JavaScript strings *)

Module JsString.

Definition code (a : ascii) : N := N_of_ascii a.

(** WhiteSpace and LineTerminator code units below 256: TAB, LF, VT,
    FF, CR, SP and NBSP. *)
Definition is_white (a : ascii) : bool :=
  let n := code a in
  ((9 <=? n)%N && (n <=? 13)%N) || (n =? 32)%N || (n =? 160)%N.

Fixpoint trimStart (s : string) : string :=
  match s with
  | EmptyString => EmptyString
  | String a r => if is_white a then trimStart r else s
  end.

Fixpoint trimEnd (s : string) : string :=
  match s with
  | EmptyString => EmptyString
  | String a r =>
      match trimEnd r with
      | EmptyString => if is_white a then EmptyString else String a EmptyString
      | r' => String a r'
      end
  end.

(** [String.prototype.trim] *)
Definition trim (s : string) : string := trimEnd (trimStart s).

Definition is_upper (a : ascii) : bool :=
  let n := code a in
  ((65 <=? n)%N && (n <=? 90)%N)
  || ((192 <=? n)%N && (n <=? 222)%N && negb (n =? 215)%N).

Definition lower_char (a : ascii) : ascii :=
  if is_upper a then ascii_of_N (code a + 32) else a.

(** [String.prototype.toLowerCase] *)
Fixpoint toLowerCase (s : string) : string :=
  match s with
  | EmptyString => EmptyString
  | String a r => String (lower_char a) (toLowerCase r)
  end.

(** [s.split(',')]: never empty, [''.split(',')] is [['']]. *)
Fixpoint split_comma (s : string) : list string :=
  match s with
  | EmptyString => [EmptyString]
  | String a r =>
      if (code a =? 44)%N then EmptyString :: split_comma r
      else match split_comma r with
           | h :: t => String a h :: t
           | [] => [String a EmptyString]
           end
  end.

(** [items.join(sep)] *)
Fixpoint join (sep : string) (items : list string) : string :=
  match items with
  | [] => EmptyString
  | [x] => x
  | x :: rest => x +:+ sep +:+ join sep rest
  end.

Definition is_digit (a : ascii) : bool :=
  let n := code a in (48 <=? n)%N && (n <=? 57)%N.

Definition digit_val (a : ascii) : N := (code a - 48)%N.

Definition digit_char (d : N) : ascii := ascii_of_N (48 + d).

(** Decimal digits of a natural number, most significant first. *)
Fixpoint digits_from (fuel : nat) (n : N) (acc : string) : string :=
  match fuel with
  | O => acc
  | S f =>
      let acc' := String (digit_char (n mod 10)) acc in
      if (n / 10 =? 0)%N then acc' else digits_from f (n / 10) acc'
  end.

Definition N_digits (n : N) : string :=
  digits_from (S (N.to_nat (N.log2 n))) n EmptyString.

(** The value of the longest prefix of decimal digits, continuing [acc]. *)
Fixpoint scan_digits (s : string) (acc : N) : N :=
  match s with
  | EmptyString => acc
  | String a r =>
      if is_digit a then scan_digits r (acc * 10 + digit_val a) else acc
  end.

Definition zeros (n : nat) : string :=
  string_of_list_ascii (repeat "0"%char n).

Fixpoint take (n : nat) (s : string) : string :=
  match n, s with
  | S k, String a r => String a (take k r)
  | _, _ => EmptyString
  end.

Fixpoint drop (n : nat) (s : string) : string :=
  match n, s with
  | S k, String _ r => drop k r
  | _, _ => s
  end.


(** A string that does not begin with white space. *)
Definition starts_clean (s : string) : Prop :=
  match s with
  | EmptyString => True
  | String a _ => is_white a = false
  end.

End JsString.

(** ** JavaScript values, as far as plain data (JSON and literals) goes *)

Module JsValue.
Import JsString.

(** A Number: NaN, plus or minus Infinity, or the finite decimal
    [m * 10^e]. *)
Inductive JsNumber : Type :=
| NaN
| Infinity (negative : bool)
| Finite (m : Z) (e : Z).

Inductive JsVal : Type :=
| JUndefined
| JNull
| JBool (b : bool)
| JNum (n : JsNumber)
| JStr (s : string)
| JArr (items : list JsVal)
| JObj (fields : list (string * JsVal)).

(** Removes the factors of ten of a mantissa, raising the exponent. *)
Fixpoint strip10 (fuel : nat) (m : N) (e : Z) : N * Z :=
  match fuel with
  | O => (m, e)
  | S f =>
      if (m mod 10 =? 0)%N && negb (m =? 0)%N
      then strip10 f (m / 10)%N (e + 1)
      else (m, e)
  end.

Definition canonical (m : N) (e : Z) : N * Z :=
  strip10 (S (N.to_nat (N.log2 m))) m e.

(** [Number::toString] (radix 10) of the positive decimal [m * 10^e]:
    with [s] the digits of the canonical mantissa, [k] their number and
    [n = k + e], the four cases of the standard.  The first one,
    [k <= n <= 21], is that of an integer below [10^21], printed as its
    digits. *)
Definition positive_toString (m : N) (e : Z) : string :=
  let '(m', e') := canonical m e in
  let s := N_digits m' in
  let k := Z.of_nat (String.length s) in
  let n := k + e' in
  if (0 <=? e') && (Z.of_N m' * 10 ^ e' <? 10 ^ 21) then
    N_digits (m' * Z.to_N (10 ^ e'))
  else if (0 <? n) && (n <=? 21) then
    take (Z.to_nat n) s +:+ "." +:+ drop (Z.to_nat n) s
  else if (-6 <? n) && (n <=? 0) then
    "0." +:+ zeros (Z.to_nat (- n)) +:+ s
  else
    let x := n - 1 in
    let sign := if x <? 0 then "-" else "+" in
    let expo := N_digits (Z.to_N (Z.abs x)) in
    if (k =? 1) then s +:+ "e" +:+ sign +:+ expo
    else take 1 s +:+ "." +:+ drop 1 s +:+ "e" +:+ sign +:+ expo.

Definition number_toString (x : JsNumber) : string :=
  match x with
  | NaN => "NaN"
  | Infinity false => "Infinity"
  | Infinity true => "-Infinity"
  | Finite m e =>
      if m =? 0 then "0"
      else if m <? 0 then "-" +:+ positive_toString (Z.to_N (- m)) e
      else positive_toString (Z.to_N m) e
  end.

(** ToString, the conversion [String(v)] performs; an array joins its
    elements with a comma, printing [null] and [undefined] as nothing. *)
Fixpoint toString (v : JsVal) : string :=
  match v with
  | JUndefined => "undefined"
  | JNull => "null"
  | JBool true => "true"
  | JBool false => "false"
  | JNum x => number_toString x
  | JStr s => s
  | JArr items =>
      join ","
        ((fix each (l : list JsVal) : list string :=
            match l with
            | [] => []
            | JUndefined :: r => EmptyString :: each r
            | JNull :: r => EmptyString :: each r
            | x :: r => toString x :: each r
            end) items)
  | JObj _ => "[object Object]"
  end.

(** ToBoolean *)
Definition truthy (v : JsVal) : bool :=
  match v with
  | JUndefined | JNull => false
  | JBool b => b
  | JNum NaN => false
  | JNum (Infinity _) => true
  | JNum (Finite m _) => negb (m =? 0)
  | JStr s => negb (String.eqb s EmptyString)
  | JArr _ | JObj _ => true
  end.

(** [typeof v === 'object'] *)
Definition typeof_object (v : JsVal) : bool :=
  match v with
  | JNull | JArr _ | JObj _ => true
  | _ => false
  end.

(** Property read [v.name] of a data property; a value without that
    property reads as [undefined]. *)
Fixpoint assoc (name : string) (fields : list (string * JsVal)) : JsVal :=
  match fields with
  | [] => JUndefined
  | (k, x) :: rest => if String.eqb k name then x else assoc name rest
  end.

Definition get (v : JsVal) (name : string) : JsVal :=
  match v with
  | JObj fields => assoc name fields
  | _ => JUndefined
  end.

(** [Number.parseInt(v, 10)]: ToString, leading white space dropped, an
    optional sign, then the longest prefix of digits; [None] is NaN.
    The result is the mathematical integer the digits denote. *)
Definition parseInt (v : JsVal) : option Z :=
  let s1 := trimStart (toString v) in
  let '(neg, s2) :=
    match s1 with
    | String a r =>
        if (code a =? 45)%N then (true, r)
        else if (code a =? 43)%N then (false, r)
        else (false, s1)
    | EmptyString => (false, s1)
    end in
  match s2 with
  | String a _ =>
      if is_digit a then
        let n := Z.of_N (scan_digits s2 0) in
        Some (if neg then - n else n)
      else None
  | EmptyString => None
  end.

Definition MAX_SAFE_INTEGER : Z := 2 ^ 53 - 1.

(** [Number.isSafeInteger] of a result of [parseInt]. *)
Definition isSafeInteger (x : option Z) : bool :=
  match x with
  | Some z => (- MAX_SAFE_INTEGER <=? z) && (z <=? MAX_SAFE_INTEGER)
  | None => false
  end.


(** [Number.isSafeInteger(v)] of a value. *)
Definition value_isSafeInteger (v : JsVal) : bool :=
  match v with
  | JNum (Finite m e) =>
      if m =? 0 then true
      else
        let '(m', e') := canonical (Z.to_N (Z.abs m)) e in
        (0 <=? e') && (Z.of_N m' * 10 ^ e' <=? MAX_SAFE_INTEGER)
  | _ => false
  end.

End JsValue.

(** ** [Array.prototype.sort]

    The sort of the language is stable; the comparator is given by the
    sign of the number it returns ([Gt]: the first argument goes after
    the second). *)

Section Sort.
Context {A : Type} (cmp : A → A → comparison).

Fixpoint insert_sorted (x : A) (l : list A) : list A :=
  match l with
  | [] => [x]
  | y :: r =>
      match cmp x y with
      | Gt => y :: insert_sorted x r
      | _ => x :: l
      end
  end.

Definition sort (l : list A) : list A := foldr insert_sorted [] l.

(** [x] may stay before [y]. *)
Definition before (x y : A) : Prop := cmp x y ≠ Gt.
End Sort.

(** ** A [Map] keyed by strings, in insertion order *)

Module JsMap.
Definition t : Type := list (string * Z).

Fixpoint get (m : t) (k : string) : option Z :=
  match m with
  | [] => None
  | (k', v) :: r => if String.eqb k' k then Some v else get r k
  end.

(** [map.get(k) || 0] *)
Definition get0 (m : t) (k : string) : Z := default 0 (get m k).

Fixpoint set (m : t) (k : string) (v : Z) : t :=
  match m with
  | [] => [(k, v)]
  | (k', v') :: r =>
      if String.eqb k' k then (k, v) :: r else (k', v') :: set r k v
  end.
End JsMap.

(** The keys of a map, in insertion order. *)
Abbreviation keys m := (map fst m).

(** ** The ledger *)

Module ExpenseSplit.
Import JsString JsValue.

Definition normalizeText (value : JsVal) : string :=
  trim (toString (if truthy value then value else JStr EmptyString)).

Definition normalizeMember (value : JsVal) : string :=
  toLowerCase (normalizeText value).

(** The loop of [parseMembers]: [dedup] is the [Set], [members] the
    array being pushed to. *)
Fixpoint collect_members (values : list JsVal) (dedup : gset string)
    (members : list string) : list string :=
  match values with
  | [] => members
  | raw :: rest =>
      let member := normalizeMember raw in
      if String.eqb member EmptyString || bool_decide (member ∈ dedup)
      then collect_members rest dedup members
      else collect_members rest ({[member]} ∪ dedup) (members ++ [member])
  end.

Definition parseMembers (value : JsVal) : list string :=
  let values :=
    match value with
    | JArr items => items
    | JStr s => map JStr (split_comma s)
    | _ => []
    end in
  collect_members values ∅ [].

Record Event : Type := {
  txId : string;
  payer : string;
  amountCents : Z;
  split : list string;
  note : string;
  ts : JsNumber;
  by_ : JsVal;
}.

(** The plain object an event is, as other code reads it. *)
Definition event_object (e : Event) : JsVal :=
  JObj [("txId", JStr (txId e));
        ("payer", JStr (payer e));
        ("amountCents", JNum (Finite (amountCents e) 0));
        ("split", JArr (map JStr (split e)));
        ("note", JStr (note e));
        ("ts", JNum (ts e));
        ("by", by_ e)].

(** [now] is the reading of [Date.now()]. *)
Definition normalizeEvent (now : Z) (event : JsVal) : option Event :=
  if negb (truthy event) || negb (typeof_object event) then None
  else
    let txId := normalizeText (get event "txId") in
    let payer := normalizeMember (get event "payer") in
    let amountCents := parseInt (get event "amountCents") in
    let split := parseMembers (get event "split") in
    match amountCents with
    | Some cents =>
        if String.eqb txId EmptyString || String.eqb payer EmptyString
           || negb (isSafeInteger amountCents) || (cents <=? 0)
           || (length split =? 0)%nat
        then None
        else
          let note := normalizeText (get event "note") in
          let ts :=
            match get event "ts" with
            | JNum (Finite m e) => Finite m e
            | _ => Finite now 0
            end in
          let by_ :=
            match get event "by" with
            | JUndefined | JNull => JNull
            | v => v
            end in
          Some {| txId := txId; payer := payer; amountCents := cents;
                  split := split; note := note; ts := ts; by_ := by_ |}
    | None => None
    end.

Record Room : Type := {
  events : list Event;
  txSeen : gset string;
}.

(** The instance: the fields the ledger reads and writes. *)
Record t : Type := {
  defaultChannel : string;
  debug : bool;
  rooms : gmap string Room;
}.

Definition with_rooms (app : t) (r : gmap string Room) : t :=
  {| defaultChannel := defaultChannel app; debug := debug app; rooms := r |}.

(** [new ExpenseSplit(peer, config)]; a [null] config makes the property
    read throw, an absent one is the empty object. *)
Definition constructor (config : JsVal) : option t :=
  match config with
  | JNull => None
  | _ =>
      let channel :=
        match get config "defaultChannel" with
        | JStr s => if String.eqb (trim s) EmptyString then "0000intercom" else trim s
        | _ => "0000intercom"
        end in
      let dbg :=
        match get config "debug" with
        | JBool true => true
        | _ => false
        end in
      Some {| defaultChannel := channel; debug := dbg; rooms := ∅ |}
  end.

Definition resolveChannel (app : t) (channel : JsVal) : string :=
  let target := normalizeText channel in
  if String.eqb target EmptyString then defaultChannel app else target.

Definition empty_room : Room := {| events := []; txSeen := ∅ |}.

(** The room, and the instance after the lazy creation. *)
Definition getRoom (app : t) (channel : JsVal) : Room * t :=
  let key := resolveChannel app channel in
  match rooms app !! key with
  | Some room => (room, app)
  | None => (empty_room, with_rooms app (<[key := empty_room]> (rooms app)))
  end.

(** Writes back the room object that [getRoom] handed out. *)
Definition put_room (app : t) (channel : JsVal) (room : Room) : t :=
  with_rooms app (<[resolveChannel app channel := room]> (rooms app)).

Inductive AddResult : Type :=
| AddError (error : string)
| AddOk (duplicate : bool) (event : Event).

Definition addEvent (app : t) (channel : JsVal) (event : JsVal) (now : Z)
    : AddResult * t :=
  match normalizeEvent now event with
  | None => (AddError "Invalid expense event payload.", app)
  | Some normalized =>
      let '(room, app1) := getRoom app channel in
      if bool_decide (txId normalized ∈ txSeen room)
      then (AddOk true normalized, app1)
      else
        let room' :=
          {| events := events room ++ [normalized];
             txSeen := {[txId normalized]} ∪ txSeen room |} in
        (AddOk false normalized, put_room app1 channel room')
  end.

(** [{ ok: true, channel }] of [clearChannel]. *)
Definition clearChannel (app : t) (channel : JsVal) : string * t :=
  let target := resolveChannel app channel in
  (target, with_rooms app (delete target (rooms app))).

(** The sign of [a - b] on Numbers; NaN counts as zero for the sort. *)
Definition number_compare (a b : JsNumber) : comparison :=
  match a, b with
  | Finite m1 e1, Finite m2 e2 =>
      let e := Z.min e1 e2 in
      (m1 * 10 ^ (e1 - e)) ?= (m2 * 10 ^ (e2 - e))
  | Finite _ _, Infinity neg => if neg then Gt else Lt
  | Infinity neg, Finite _ _ => if neg then Lt else Gt
  | Infinity n1, Infinity n2 =>
      match n1, n2 with
      | false, true => Gt
      | true, false => Lt
      | _, _ => Eq
      end
  | _, _ => Eq
  end.

Definition by_ts (a b : Event) : comparison := number_compare (ts a) (ts b).

(** [list(channel)] *)
Definition list_events (app : t) (channel : JsVal) : list Event :=
  match rooms app !! resolveChannel app channel with
  | None => []
  | Some room => sort by_ts (events room)
  end.

Record Balance : Type := { member : string; cents : Z }.

(** [baseShare + (idx < remainder ? 1 : 0)] *)
Definition share_of (baseShare remainder : Z) (idx : nat) : Z :=
  baseShare + (if Z.of_nat idx <? remainder then 1 else 0).

(** The share of each member of the split, in split order. *)
Definition shares (event : Event) : list (string * Z) :=
  let members := split event in
  let count := Z.of_nat (length members) in
  let baseShare := amountCents event / count in
  let remainder := amountCents event - baseShare * count in
  imap (fun idx member => (member, share_of baseShare remainder idx)) members.

(** The body of [members.forEach]: the member's balance falls by the
    share. *)
Definition take_share (map : JsMap.t) (entry : string * Z) : JsMap.t :=
  let '(member, share) := entry in
  JsMap.set map member (JsMap.get0 map member - share).

(** The body of the loop over the events. *)
Definition apply_event (map : JsMap.t) (event : Event) : JsMap.t :=
  if (length (split event) =? 0)%nat then map
  else
    let map1 := fold_left take_share (shares event) map in
    JsMap.set map1 (payer event) (JsMap.get0 map1 (payer event) + amountCents event).

Definition balance_map (evs : list Event) : JsMap.t :=
  fold_left apply_event evs [].

Record Settlement : Type := { from : string; to : string; amount : Z }.

(** The while loop of [settlements]: [debtors] and [creditors] are the
    arrays from [i] and from [j] on, their heads carrying what is left
    of the current entries; [None] when the fuel runs out. *)
Fixpoint settle_loop (fuel : nat) (debtors creditors : list Balance)
    (settlements : list Settlement) : option (list Settlement) :=
  match debtors, creditors with
  | debtor :: ds, creditor :: cs =>
      match fuel with
      | O => None
      | S fuel' =>
          let amountCents := Z.min (cents debtor) (cents creditor) in
          let settlements' :=
            if 0 <? amountCents
            then (settlements ++ [{| from := member debtor;
                                     to := member creditor;
                                     amount := amountCents |}])%list
            else settlements in
          let d := cents debtor - amountCents in
          let c := cents creditor - amountCents in
          let debtors' :=
            if d =? 0 then ds else {| member := member debtor; cents := d |} :: ds in
          let creditors' :=
            if c =? 0 then cs else {| member := member creditor; cents := c |} :: cs in
          settle_loop fuel' debtors' creditors' settlements'
      end
  | _, _ => Some settlements
  end.

Definition by_cents_desc (a b : Balance) : comparison := cents b ?= cents a.

Definition plan (balances : list Balance) : option (list Settlement) :=
  let creditors :=
    sort by_cents_desc (filter (fun entry => 0 < cents entry) balances) in
  let debtors :=
    sort by_cents_desc
      (map (fun entry => {| member := member entry; cents := Z.abs (cents entry) |})
           (filter (fun entry => cents entry < 0) balances)) in
  settle_loop (length debtors + length creditors) debtors creditors [].

Section Host.
(** The sign of [a.localeCompare(b)]. *)
Variable localeCompare : string → string → comparison.

Definition by_member (a b : Balance) : comparison :=
  localeCompare (member a) (member b).

Definition balances (app : t) (channel : JsVal) : list Balance :=
  sort by_member
    (map (fun '(member, cents) => {| member := member; cents := cents |})
         (balance_map (list_events app channel))).

Definition settlements (app : t) (channel : JsVal) : option (list Settlement) :=
  plan (balances app channel).

Record Summary : Type := {
  summary_channel : string;
  eventCount : nat;
  totalCents : Z;
  summary_balances : list Balance;
  summary_settlements : option (list Settlement);
}.

Definition summary (app : t) (channel : JsVal) : Summary :=
  let target := resolveChannel app channel in
  let events := list_events app (JStr target) in
  {| summary_channel := target;
     eventCount := length events;
     totalCents := fold_left (fun sum item => sum + amountCents item) events 0;
     summary_balances := balances app (JStr target);
     summary_settlements := settlements app (JStr target) |}.
End Host.

(** *** Snapshots *)

Record Snapshot : Type := {
  snapshot_channel : string;
  snapshot_version : JsVal;
  snapshot_events : list Event;
}.

(** The loop of [normalizeSnapshot]; [clock idx] is the reading of
    [Date.now()] while the entry at [idx] is normalized. *)
Fixpoint snapshot_loop (clock : nat → Z) (idx : nat) (sourceEvents : list JsVal)
    (events : list Event) (txSeen : gset string) : list Event :=
  match sourceEvents with
  | [] => events
  | raw :: rest =>
      match normalizeEvent (clock idx) raw with
      | Some normalized =>
          if bool_decide (txId normalized ∈ txSeen)
          then snapshot_loop clock (S idx) rest events txSeen
          else snapshot_loop clock (S idx) rest (events ++ [normalized])
                 ({[txId normalized]} ∪ txSeen)
      | None => snapshot_loop clock (S idx) rest events txSeen
      end
  end.

Definition normalizeSnapshot (app : t) (clock : nat → Z) (snapshot : JsVal)
    : option Snapshot :=
  if negb (truthy snapshot) || negb (typeof_object snapshot) then None
  else
    let channel := resolveChannel app (get snapshot "channel") in
    let sourceEvents :=
      match get snapshot "events" with
      | JArr items => items
      | _ => []
      end in
    let events := sort by_ts (snapshot_loop clock 0 sourceEvents [] ∅) in
    Some {| snapshot_channel := channel;
            snapshot_version :=
              if value_isSafeInteger (get snapshot "version")
              then get snapshot "version" else JNum (Finite 1 0);
            snapshot_events := events |}.

Definition exportRoom (app : t) (channel : JsVal) : JsVal :=
  let target := resolveChannel app channel in
  let events := list_events app (JStr target) in
  JObj [("channel", JStr target);
        ("version", JNum (Finite 1 0));
        ("events", JArr (map event_object events))].

Inductive ImportResult : Type :=
| ImportError (error : string)
| ImportOk (channel : string) (added total : nat)
| ImportThrows.

(** The merge loop of [importRoom]. *)
Fixpoint import_loop (incoming : list Event) (room : Room) (added : nat)
    : Room * nat :=
  match incoming with
  | [] => (room, added)
  | event :: rest =>
      if bool_decide (txId event ∈ txSeen room)
      then import_loop rest room added
      else import_loop rest
             {| events := events room ++ [event];
                txSeen := {[txId event]} ∪ txSeen room |}
             (S added)
  end.

(** [importRoom(snapshot, options)]; reading [replace] off a [null]
    [options] throws, before any room is touched. *)
Definition importRoom (app : t) (snapshot options : JsVal) (clock : nat → Z)
    : ImportResult * t :=
  match normalizeSnapshot app clock snapshot with
  | None => (ImportError "Invalid snapshot.", app)
  | Some normalized =>
      match options with
      | JNull => (ImportThrows, app)
      | _ =>
          let replace :=
            match get options "replace" with
            | JBool true => true
            | _ => false
            end in
          let channel := JStr (snapshot_channel normalized) in
          let '(room, app1) := getRoom app channel in
          let room1 := if replace then empty_room else room in
          let '(room2, added) := import_loop (snapshot_events normalized) room1 0 in
          let room3 :=
            {| events := sort by_ts (events room2); txSeen := txSeen room2 |} in
          (ImportOk (snapshot_channel normalized) added (length (events room3)),
           put_room app1 channel room3)
      end
  end.

(** *** Vocabulary of the properties *)

(** The ledger operations at two channel identifiers coincide. *)
Definition same_operations (app : t) (c1 c2 : JsVal) : Prop :=
  (∀ raw now, addEvent app c1 raw now = addEvent app c2 raw now)
  ∧ list_events app c1 = list_events app c2
  ∧ (∀ cmp, balances cmp app c1 = balances cmp app c2)
  ∧ (∀ cmp, settlements cmp app c1 = settlements cmp app c2)
  ∧ (∀ cmp, summary cmp app c1 = summary cmp app c2)
  ∧ clearChannel app c1 = clearChannel app c2
  ∧ exportRoom app c1 = exportRoom app c2
  ∧ (∀ rest options clock,
       importRoom app (JObj (("channel", c1) :: rest)) options clock
       = importRoom app (JObj (("channel", c2) :: rest)) options clock).

(** A string of white space only, the empty one included. *)
Definition all_white (s : string) : bool :=
  forallb is_white (list_ascii_of_string s).

(** A channel identifier that names no channel. *)
Definition blank (channel : JsVal) : Prop :=
  channel = JNull ∨ channel = JUndefined
  ∨ ∃ s, channel = JStr s ∧ all_white s = true.

(** A room that holds nothing yet: absent, or created and empty. *)
Definition fresh_room (app : t) (channel : JsVal) : Prop :=
  rooms app !! resolveChannel app channel = None
  ∨ rooms app !! resolveChannel app channel = Some empty_room.










(** *** Sequences of applications *)

(** The room of a channel as [getRoom] would hand it out. *)
Definition room_of (app : t) (channel : JsVal) : Room :=
  default empty_room (rooms app !! resolveChannel app channel).

(** The events stored in the room of a channel, in arrival order. *)
Definition room_events (app : t) (channel : JsVal) : list Event :=
  events (room_of app channel).

(** [addEvent] for each raw event in turn; [clock idx] is the reading of
    [Date.now()] at the call numbered [idx]. *)
Fixpoint addEvents (app : t) (channel : JsVal) (clock : nat → Z) (idx : nat)
    (raws : list JsVal) : t :=
  match raws with
  | [] => app
  | raw :: rest =>
      addEvents (addEvent app channel raw (clock idx)).2 channel clock (S idx) rest
  end.

(** The [txId] a raw event normalizes to. *)
Definition tx_of (raw : JsVal) : string := normalizeText (get raw "txId").




(** A sample of a linear collation: the order of the code units. *)
Definition code_unit_order : string → string → comparison := String.compare.

(** *** The invariant of the instance *)

(** A member name as [normalizeMember] leaves it. *)
Definition normal_member (m : string) : Prop :=
  m ≠ EmptyString ∧ normalizeMember (JStr m) = m.

(** An event as [normalizeEvent] leaves it. *)
Record normal_event (e : Event) : Prop := {
  normal_txId : txId e ≠ EmptyString ∧ trim (txId e) = txId e;
  normal_payer : normal_member (payer e);
  normal_amount : 0 < amountCents e ≤ MAX_SAFE_INTEGER;
  normal_split : split e ≠ [] ∧ NoDup (split e) ∧ Forall normal_member (split e);
  normal_note : trim (note e) = note e;
  normal_ts : ∃ m x, ts e = Finite m x;
  normal_by : by_ e ≠ JUndefined;
}.

(** The invariant of a room: no two events share a [txId], the index
    holds exactly the [txId]s of the events, and the events are
    normalized. *)
Definition room_ok (room : Room) : Prop :=
  NoDup (map txId (events room))
  ∧ (∀ id, id ∈ txSeen room ↔ id ∈ map txId (events room))
  ∧ Forall normal_event (events room).

Definition wf (app : t) : Prop :=
  defaultChannel app ≠ EmptyString
  ∧ trim (defaultChannel app) = defaultChannel app
  ∧ ∀ key room, rooms app !! key = Some room → room_ok room.

(** The instances the operations of the class can produce. *)
Inductive reachable : t → Prop :=
| reach_new config app :
    constructor config = Some app → reachable app
| reach_add app channel raw now :
    reachable app → reachable (addEvent app channel raw now).2
| reach_clear app channel :
    reachable app → reachable (clearChannel app channel).2
| reach_import app snapshot options clock :
    reachable app → reachable (importRoom app snapshot options clock).2.

Definition replace_option : JsVal := JObj [("replace", JBool true)].
Definition no_option : JsVal := JObj [].

(** Validity of a raw event in the words of the data model: [txId] and
    [payer] non-empty once normalized, [amountCents] a positive safe
    integer once parsed, [split] non-empty once normalized. *)
Definition valid_event (raw : JsVal) : Prop :=
  normalizeText (get raw "txId") ≠ EmptyString
  ∧ normalizeMember (get raw "payer") ≠ EmptyString
  ∧ (∃ cents, parseInt (get raw "amountCents") = Some cents
              ∧ 0 < cents ≤ MAX_SAFE_INTEGER)
  ∧ parseMembers (get raw "split") ≠ [].




(** A sample instance: two expenses recorded in the room ["trip"]. *)
Definition sample_event (id who : string) (cents : Z) (members : string) (t : Z)
    : JsVal :=
  JObj [("txId", JStr id); ("payer", JStr who);
        ("amountCents", JNum (Finite cents 0));
        ("split", JStr members); ("ts", JNum (Finite t 0))].

Definition sample_app : t :=
  {| defaultChannel := "0000intercom"; debug := false; rooms := ∅ |}.

Definition sample_trip : t :=
  addEvents sample_app (JStr "trip") (λ _, 0) 0
    [sample_event "t1" "alice" 3000 "alice,bob" 5;
     sample_event "t2" "bob" 1000 "alice,bob" 3].



(** An event without its time: what the balances depend on. *)
Definition erase_ts (e : Event) : Event :=
  {| txId := txId e; payer := payer e; amountCents := amountCents e;
     split := split e; note := note e; ts := Finite 0 0; by_ := by_ e |}.

(** *** The rest of the class *)

Definition APP_KEY : string := "expense_split_v1".

(** [v === s] for a string [s]. *)
Definition is_string (v : JsVal) (s : string) : bool :=
  match v with
  | JStr x => String.eqb x s
  | _ => false
  end.

(** [handleSidechannelMessage(channel, payload)]: the value returned and
    the instance afterwards; [payload?.message] reads as [undefined] off
    a payload without that property. *)
Definition handleSidechannelMessage (app : t) (channel payload : JsVal) (now : Z)
    : bool * t :=
  let message := get payload "message" in
  if negb (truthy message) || negb (typeof_object message)
     || negb (is_string (get message "app") APP_KEY)
  then (false, app)
  else if is_string (get message "type") "expense_add"
  then (true, (addEvent app channel (get message "event") now).2)
  else if is_string (get message "type") "expense_clear"
  then (true, with_rooms app (delete (resolveChannel app channel) (rooms app)))
  else (false, app).

(** *** Vocabulary of the further properties *)

(** The names [parseMembers] reads, each normalized, in input order. *)
Definition member_candidates (value : JsVal) : list string :=
  normalizeMember <$>
    match value with
    | JArr items => items
    | JStr s => map JStr (split_comma s)
    | _ => []
    end.

(** A list without the later repetitions of its elements. *)
Definition first_occurrences (l : list string) : list string :=
  reverse (remove_dups (reverse l)).




(** The entries of the [events] array of a snapshot. *)
Definition snapshot_entries (snapshot : JsVal) : list JsVal :=
  match get snapshot "events" with
  | JArr items => items
  | _ => []
  end.

Definition sample_snapshot : JsVal :=
  JObj [("channel", JStr "trip");
        ("events", JArr [sample_event "t2" "bob" 1000 "alice,bob" 3;
                         sample_event "t9" "carol" 600 "alice,bob,carol" 4;
                         JStr "junk"])].

End ExpenseSplit.

(** ** The bridge: what it does before it calls the ledger *)

Module ScBridge.
Import JsString JsValue ExpenseSplit.

(** [parseMembers] of the bridge: the names normalized, the empty ones
    dropped, repetitions kept. *)
Definition parseMembers (value : JsVal) : list string :=
  let values :=
    match value with
    | JArr items => items
    | JStr s => map JStr (split_comma s)
    | _ => []
    end in
  filter (λ entry, (0 < String.length entry)%nat)
    (map (λ entry,
            toLowerCase (trim (toString (if truthy entry then entry
                                         else JStr EmptyString))))
         values).

(** [String(message.channel || app.defaultChannel || '').trim()] *)
Definition request_channel (app : ExpenseSplit.t) (message : JsVal) : string :=
  let channel := get message "channel" in
  let value :=
    if truthy channel then channel
    else if truthy (JStr (defaultChannel app)) then JStr (defaultChannel app)
    else JStr EmptyString in
  trim (toString value).

(** What a case of the switch sends back. *)
Inductive Reply : Type :=
| ReplyError (error : string)
| ExpenseList (channel : string) (count : nat) (events : list Event)
| ExpenseBalance (summary : Summary)
| ExpenseCleared (channel : string) (ok : bool).

(** [case 'expense_list']; [app] is [this.peer?.expenseSplit]. *)
Definition expense_list (app : option ExpenseSplit.t) (message : JsVal)
    : Reply * option ExpenseSplit.t :=
  match app with
  | None => (ReplyError "Expense split app not initialized.", app)
  | Some ledger =>
      let channel := request_channel ledger message in
      if String.eqb channel EmptyString then (ReplyError "Missing channel.", app)
      else
        let events := list_events ledger (JStr channel) in
        (ExpenseList channel (length events) events, app)
  end.

Section Host.
Variable localeCompare : string → string → comparison.

(** [case 'expense_balance'] *)
Definition expense_balance (app : option ExpenseSplit.t) (message : JsVal)
    : Reply * option ExpenseSplit.t :=
  match app with
  | None => (ReplyError "Expense split app not initialized.", app)
  | Some ledger =>
      let channel := request_channel ledger message in
      if String.eqb channel EmptyString then (ReplyError "Missing channel.", app)
      else (ExpenseBalance (summary localeCompare ledger (JStr channel)), app)
  end.
End Host.

(** [case 'expense_clear'] *)
Definition expense_clear (app : option ExpenseSplit.t) (message : JsVal)
    : Reply * option ExpenseSplit.t :=
  match app with
  | None => (ReplyError "Expense split app not initialized.", app)
  | Some ledger =>
      let channel := request_channel ledger message in
      if String.eqb channel EmptyString then (ReplyError "Missing channel.", app)
      else
        let '(target, ledger') := clearChannel ledger (JStr channel) in
        (ExpenseCleared target true, Some ledger')
  end.

(** The channel of [case 'expense_persist'] and [case 'expense_restore']:
    [String(message.channel || app.defaultChannel || '').trim().toLowerCase()] *)
Definition storage_channel (app : ExpenseSplit.t) (message : JsVal) : string :=
  toLowerCase (request_channel app message).

(** The command [case 'expense_persist'] hands to the protocol once the
    protocol is known to be there: its channel and its snapshot; [None]
    is the reply 'Missing channel.'. *)
Definition persist_command (app : ExpenseSplit.t) (message : JsVal)
    : option (string * JsVal) :=
  let channel := storage_channel app message in
  if String.eqb channel EmptyString then None
  else Some (channel, exportRoom app (JStr channel)).

(** [parseBoolFlag(value, fallback)] *)
Definition parseBoolFlag (value : JsVal) (fallback : bool) : bool :=
  let absent :=
    match value with
    | JUndefined | JNull => true
    | JStr s => String.eqb s EmptyString
    | _ => false
    end in
  if absent then fallback
  else existsb (String.eqb (toLowerCase (trim (toString value))))
         ["1"; "true"; "yes"; "on"].

(** [s.split(c)] for a separator of one character: never empty. *)
Fixpoint split_at (c : N) (s : string) : list string :=
  match s with
  | EmptyString => [EmptyString]
  | String a r =>
      if (code a =? c)%N then EmptyString :: split_at c r
      else match split_at c r with
           | h :: t => String a h :: t
           | [] => [String a EmptyString]
           end
  end.

(** The class [[+,\s]] of the regular expression. *)
Definition is_separator (a : ascii) : bool :=
  (code a =? 43)%N || (code a =? 44)%N || is_white a.

(** [s.split(/[+,\s]+/)]: a run of separators splits once; [inside]
    tells that the character before was a separator. *)
Fixpoint split_runs (inside : bool) (s : string) : list string :=
  match s with
  | EmptyString => [EmptyString]
  | String a r =>
      if is_separator a
      then if inside then split_runs true r else EmptyString :: split_runs true r
      else match split_runs false r with
           | h :: t => String a h :: t
           | [] => [String a EmptyString]
           end
  end.

(** [s.startsWith(w)] *)
Fixpoint starts_with (w s : string) : bool :=
  match w, s with
  | EmptyString, _ => true
  | String a w', String b s' => Ascii.eqb a b && starts_with w' s'
  | String _ _, EmptyString => false
  end.

(** [s.includes(w)] *)
Fixpoint includes (s w : string) : bool :=
  starts_with w s
  || match s with
     | EmptyString => false
     | String _ r => includes r w
     end.

(** [parseFilter(raw)]: the alternatives, each a list of words. *)
Definition parseFilter (raw : JsVal) : list (list string) :=
  if negb (truthy raw) then []
  else
    filter (λ group, (0 < length group)%nat)
      (map (λ group,
              map toLowerCase
                (filter (λ word, (0 < String.length word)%nat)
                   (map trim (split_runs false (trim group)))))
           (split_at 124 (toString raw))).

(** [matchesFilter(filter, text)] for the array [filter] a client holds. *)
Definition matchesFilter (filter : list (list string)) (text : string) : bool :=
  match filter with
  | [] => true
  | _ =>
      let haystack := toLowerCase text in
      existsb (λ group, forallb (λ word, includes haystack word) group) filter
  end.

(** Every character of [s] satisfies [P]. *)
Definition every_char (P : ascii → Prop) (s : string) : Prop :=
  Forall P (list_ascii_of_string s).

(** A ledger whose only room has a capital letter in its name. *)
Definition sample_capital : ExpenseSplit.t :=
  addEvents sample_app (JStr "Trip") (λ _, 0) 0
    [sample_event "t1" "alice" 3000 "alice,bob" 5].

End ScBridge.

(** ** The terminal: how it reads its arguments *)

Module Ui.
Import JsString JsValue ExpenseSplit.

(** [parseMembersArg(raw)] *)
Definition parseMembersArg (raw : JsVal) : list string :=
  match raw with
  | JArr items =>
      filter (λ value, (0 < String.length value)%nat)
        (map (λ value,
                toLowerCase (trim (toString (if truthy value then value
                                             else JStr EmptyString))))
             items)
  | _ =>
      if negb (truthy raw) then []
      else
        filter (λ value, (0 < String.length value)%nat)
          (map (λ value, toLowerCase (trim value)) (split_comma (toString raw)))
  end.

(** [normalizeChannel(value)] *)
Definition normalizeChannel (value : JsVal) : string :=
  toLowerCase (trim (toString (if truthy value then value else JStr EmptyString))).

End Ui.

(** * Properties *)

(** ** Strings and numbers *)

Module JsStringFacts.
Import JsString.

Ltac by_char a := destruct a as [[] [] [] [] [] [] [] []]; vm_compute; try reflexivity; try congruence.

Lemma is_white_lower a : is_white (lower_char a) = is_white a.
Proof. by_char a. Qed.

Lemma lower_char_idem a : lower_char (lower_char a) = lower_char a.
Proof. by_char a. Qed.

Lemma toLowerCase_idem s : toLowerCase (toLowerCase s) = toLowerCase s.
Proof. induction s as [|a r IH]; simpl; [reflexivity|]. now rewrite lower_char_idem, IH. Qed.

Lemma trimStart_lower s : trimStart (toLowerCase s) = toLowerCase (trimStart s).
Proof.
  induction s as [|a r IH]; simpl; [reflexivity|].
  rewrite is_white_lower. destruct (is_white a); [exact IH | reflexivity].
Qed.

Lemma trimEnd_lower s : trimEnd (toLowerCase s) = toLowerCase (trimEnd s).
Proof.
  induction s as [|a r IH]; simpl; [reflexivity|].
  rewrite IH, is_white_lower.
  destruct (trimEnd r) as [|b r'] eqn:E; simpl; [|reflexivity].
  destruct (is_white a); reflexivity.
Qed.

Lemma trim_lower s : trim (toLowerCase s) = toLowerCase (trim s).
Proof. unfold trim. now rewrite trimStart_lower, trimEnd_lower. Qed.

Lemma trimStart_clean s : starts_clean (trimStart s).
Proof.
  induction s as [|a r IH]; simpl; [exact I|].
  destruct (is_white a) eqn:E; [exact IH | exact E].
Qed.

Lemma trimStart_of_clean s : starts_clean s → trimStart s = s.
Proof. destruct s as [|a r]; simpl; [reflexivity|]. now intros ->. Qed.

Lemma trimEnd_clean s : starts_clean s → starts_clean (trimEnd s).
Proof.
  destruct s as [|a r]; simpl; [exact id|]. intros H.
  destruct (trimEnd r); [rewrite H|]; exact H.
Qed.

Lemma trimEnd_idem s : trimEnd (trimEnd s) = trimEnd s.
Proof.
  induction s as [|a r IH]; simpl; [reflexivity|].
  destruct (trimEnd r) as [|b r'] eqn:E.
  - destruct (is_white a) eqn:W; simpl; [reflexivity | now rewrite W].
  - simpl in *. now rewrite IH.
Qed.

Lemma trim_idem s : trim (trim s) = trim s.
Proof.
  unfold trim.
  rewrite (trimStart_of_clean (trimEnd (trimStart s))).
  - apply trimEnd_idem.
  - apply trimEnd_clean, trimStart_clean.
Qed.

Lemma digit_char_ok d :
  (d < 10)%N → is_digit (digit_char d) = true ∧ digit_val (digit_char d) = d
               ∧ is_white (digit_char d) = false
               ∧ (code (digit_char d) =? 45)%N = false
               ∧ (code (digit_char d) =? 43)%N = false.
Proof.
  intros H.
  assert (E : d ∈ [0; 1; 2; 3; 4; 5; 6; 7; 8; 9]%N).
  { rewrite !elem_of_cons. lia. }
  rewrite !elem_of_cons in E. rewrite elem_of_nil in E.
  repeat (destruct E as [-> | E]; [vm_compute; repeat split; reflexivity|]).
  destruct E.
Qed.

Lemma scan_digits_from fuel : ∀ n rest,
  (n < 2 ^ N.of_nat fuel)%N →
  ∃ k, ∀ a, scan_digits (digits_from fuel n rest) a
            = scan_digits rest (a * 10 ^ k + n).
Proof.
  induction fuel as [|f IH]; intros n rest Hn.
  - exists 0%N. intros a. simpl in *. f_equal. lia.
  - cbn [digits_from].
    assert (Hd : (n mod 10 < 10)%N) by (apply N.mod_lt; lia).
    destruct (digit_char_ok _ Hd) as (Hdig & Hval & _).
    destruct (N.eqb_spec (n / 10) 0) as [Hz | Hz].
    + exists 1%N. intros a. cbn [scan_digits]. rewrite Hdig, Hval.
      f_equal. pose proof (N.div_mod' n 10) as E. rewrite Hz in E. lia.
    + destruct (IH (n / 10)%N (String (digit_char (n mod 10)) rest)) as [k Hk].
      { rewrite Nat2N.inj_succ, N.pow_succ_r' in Hn.
        apply N.Div0.div_lt_upper_bound. lia. }
      exists (N.succ k). intros a. rewrite Hk.
      cbn [scan_digits]. rewrite Hdig, Hval. f_equal.
      rewrite N.pow_succ_r'. pose proof (N.div_mod' n 10) as E.
      set (q := (n / 10)%N) in *. set (r := (n mod 10)%N) in *.
      set (p := (10 ^ k)%N). lia.
Qed.

Lemma log2_fuel n : (n < 2 ^ N.of_nat (S (N.to_nat (N.log2 n))))%N.
Proof.
  rewrite Nat2N.inj_succ, N2Nat.id.
  destruct (N.eq_dec n 0%N) as [-> | Hn]; [vm_compute; reflexivity|].
  apply N.log2_spec. lia.
Qed.

Lemma scan_N_digits n : scan_digits (N_digits n) 0%N = n.
Proof.
  unfold N_digits.
  destruct (scan_digits_from _ n EmptyString (log2_fuel n)) as [k Hk].
  rewrite Hk. simpl. lia.
Qed.

Lemma digits_from_head f : ∀ n acc,
  ∃ d r, (d < 10)%N ∧ digits_from (S f) n acc = String (digit_char d) r.
Proof.
  induction f as [|f IH]; intros n acc.
  - exists (n mod 10)%N, acc. split; [apply N.mod_lt; lia|].
    simpl. now destruct (n / 10 =? 0)%N.
  - cbn [digits_from].
    destruct (n / 10 =? 0)%N.
    + exists (n mod 10)%N, acc. split; [apply N.mod_lt; lia | reflexivity].
    + apply (IH (n / 10)%N).
Qed.

Lemma N_digits_head n :
  ∃ d r, (d < 10)%N ∧ N_digits n = String (digit_char d) r.
Proof. apply digits_from_head. Qed.

End JsStringFacts.

Module JsValueFacts.
Import JsString JsValue JsStringFacts.

Example toString_samples :
  map JsValue.toString
    [JsValue.JNum (JsValue.Finite 129 (-1));
     JsValue.JNum (JsValue.Finite 1200 (-2));
     JsValue.JNum (JsValue.Finite (-15) (-8));
     JsValue.JNum (JsValue.Finite 1 21);
     JsValue.JNum (JsValue.Finite 123 18);
     JsValue.JNum (JsValue.Finite 5 (-3));
     JsValue.JArr [JsValue.JNum (JsValue.Finite 1 0); JsValue.JNull; JsValue.JStr "x"]]
  = ["12.9"; "12"; "-1.5e-7"; "1e+21"; "123000000000000000000"; "0.005"; "1,,x"].
Proof. vm_compute. reflexivity. Qed.

Lemma strip10_spec fuel : ∀ m e,
  e ≤ (strip10 fuel m e).2
  ∧ Z.of_N (strip10 fuel m e).1 * 10 ^ ((strip10 fuel m e).2 - e) = Z.of_N m.
Proof.
  induction fuel as [|f IH]; intros m e; cbn [strip10].
  - simpl. rewrite Z.sub_diag. lia.
  - destruct (N.eqb_spec (m mod 10) 0) as [Hmod | Hmod]; simpl andb;
      [destruct (N.eqb_spec m 0) as [Hm | Hm]; simpl negb|];
      try (simpl; rewrite Z.sub_diag; lia).
    destruct (IH (m / 10)%N (e + 1)) as [Hle Hval].
    split; [lia|].
    replace ((strip10 f (m / 10) (e + 1)).2 - e)
      with (Z.succ ((strip10 f (m / 10) (e + 1)).2 - (e + 1))) by lia.
    rewrite Z.pow_succ_r by lia.
    pose proof (N.div_mod' m 10) as E. rewrite Hmod in E.
    set (v := Z.of_N (strip10 f (m / 10) (e + 1)).1) in *.
    set (p := 10 ^ ((strip10 f (m / 10) (e + 1)).2 - (e + 1))) in *.
    lia.
Qed.

(** A positive integer below [10^21] prints as its digits. *)
Lemma positive_toString_integer (m : N) :
  Z.of_N m < 10 ^ 21 → positive_toString m 0 = N_digits m.
Proof.
  intros Hm. unfold positive_toString, canonical.
  destruct (strip10_spec (S (N.to_nat (N.log2 m))) m 0) as [Hle Hval].
  destruct (strip10 _ m 0) as [m' e']. cbn [fst snd] in *.
  rewrite Z.sub_0_r in Hval.
  destruct (Z.leb_spec 0 e') as [_ | ?]; [|lia]. rewrite Hval.
  destruct (Z.ltb_spec (Z.of_N m) (10 ^ 21)) as [_ | ?]; [|lia].
  cbn [andb]. f_equal.
  assert (0 < 10 ^ e') by (apply Z.pow_pos_nonneg; lia). lia.
Qed.

(** [parseInt] reads back the cents that [toString] printed. *)
Lemma parseInt_integer (z : Z) :
  0 < z < 10 ^ 21 → parseInt (JNum (Finite z 0)) = Some z.
Proof.
  intros [Hpos Hlt]. unfold parseInt. cbn [toString number_toString].
  destruct (Z.eqb_spec z 0) as [? | _]; [lia|].
  destruct (Z.ltb_spec z 0) as [? | _]; [lia|].
  rewrite positive_toString_integer by lia.
  destruct (N_digits_head (Z.to_N z)) as (d & r & Hd & E).
  destruct (digit_char_ok d Hd) as (Hdig & _ & Hw & Hminus & Hplus).
  pose proof (scan_N_digits (Z.to_N z)) as Hscan.
  rewrite E in *. cbn [trimStart]. rewrite Hw, Hminus, Hplus, Hdig, Hscan.
  f_equal. lia.
Qed.

End JsValueFacts.

(** ** The ledger *)

Module ExpenseSplitFacts.
Import JsString JsValue ExpenseSplit JsStringFacts JsValueFacts.
Local Open Scope list_scope.
Local Open Scope Z_scope.

(** *** Validation *)

Lemma eqb_empty_false (s : string) : String.eqb s EmptyString = false ↔ s ≠ EmptyString.
Proof. apply String.eqb_neq. Qed.

Lemma normalizeEvent_Some now raw e :
  normalizeEvent now raw = Some e →
  txId e = normalizeText (get raw "txId")
  ∧ payer e = normalizeMember (get raw "payer")
  ∧ parseInt (get raw "amountCents") = Some (amountCents e)
  ∧ split e = parseMembers (get raw "split")
  ∧ txId e ≠ EmptyString ∧ payer e ≠ EmptyString ∧ 0 < amountCents e ≤ MAX_SAFE_INTEGER
  ∧ split e ≠ [].
Proof.
  unfold normalizeEvent.
  destruct (negb (truthy raw) || negb (typeof_object raw)); [discriminate|].
  destruct (parseInt (get raw "amountCents")) as [cents|] eqn:Hc; [|discriminate].
  destruct (String.eqb_spec (normalizeText (get raw "txId")) EmptyString) as [|Hid];
    [discriminate|].
  destruct (String.eqb_spec (normalizeMember (get raw "payer")) EmptyString) as [|Hp];
    [discriminate|].
  cbn [orb isSafeInteger].
  destruct (Z.leb_spec (- MAX_SAFE_INTEGER) cents); [|discriminate].
  destruct (Z.leb_spec cents MAX_SAFE_INTEGER); [|discriminate].
  destruct (Z.leb_spec cents 0); [discriminate|].
  cbn [andb negb orb].
  destruct (parseMembers (get raw "split")) as [|x xs] eqn:Hs; [discriminate|].
  cbn. intros [= <-]. cbn. repeat split; try assumption; try lia; discriminate.
Qed.

Lemma normalizeEvent_valid now raw :
  valid_event raw ↔ is_Some (normalizeEvent now raw).
Proof.
  split.
  - intros (Hid & Hp & (cents & Hc & Hpos & Hmax) & Hs).
    unfold normalizeEvent.
    (* only an object has the properties read *)
    destruct raw; try (exfalso; apply Hid; reflexivity).
    cbn [truthy typeof_object negb orb].
    rewrite Hc.
    apply eqb_empty_false in Hid, Hp. rewrite Hid, Hp.
    cbn [orb isSafeInteger].
    destruct (Z.leb_spec (- MAX_SAFE_INTEGER) cents); [|unfold MAX_SAFE_INTEGER in *; lia].
    destruct (Z.leb_spec cents MAX_SAFE_INTEGER); [|lia].
    destruct (Z.leb_spec cents 0); [lia|].
    cbn [andb negb orb].
    destruct (parseMembers (get (JObj fields) "split")); [contradiction|].
    cbn. eauto.
  - intros [e He]. apply normalizeEvent_Some in He.
    destruct He as (Hid & Hp & Hc & Hs & Hid' & Hp' & Hrange & Hs').
    unfold valid_event. rewrite <- Hid, <- Hp, <- Hs. eauto 10.
Qed.


(** *** Channels *)

Lemma normalizeText_string s : normalizeText (JStr s) = trim s.
Proof.
  unfold normalizeText. cbn [truthy].
  destruct (String.eqb_spec s EmptyString); subst; reflexivity.
Qed.

Lemma trimStart_all_white s : all_white s = true → trimStart s = EmptyString.
Proof.
  unfold all_white. induction s as [|a r IH]; cbn; [reflexivity|].
  destruct (is_white a); cbn; [exact IH | discriminate].
Qed.

Lemma resolveChannel_blank app channel :
  blank channel → resolveChannel app channel = defaultChannel app.
Proof.
  intros [-> | [-> | (s & -> & Hs)]]; unfold resolveChannel; try reflexivity.
  rewrite normalizeText_string. unfold trim.
  now rewrite (trimStart_all_white _ Hs).
Qed.

Lemma resolveChannel_default app app' channel :
  defaultChannel app' = defaultChannel app →
  resolveChannel app' channel = resolveChannel app channel.
Proof. unfold resolveChannel. now intros ->. Qed.

Lemma getRoom_default app channel :
  defaultChannel (getRoom app channel).2 = defaultChannel app.
Proof. unfold getRoom. now destruct (rooms app !! _). Qed.

Lemma getRoom_key app c1 c2 :
  resolveChannel app c1 = resolveChannel app c2 → getRoom app c1 = getRoom app c2.
Proof. unfold getRoom. now intros ->. Qed.

Lemma put_room_key app app' c1 c2 room :
  defaultChannel app' = defaultChannel app →
  resolveChannel app c1 = resolveChannel app c2 →
  put_room app' c1 room = put_room app' c2 room.
Proof.
  intros Hd H. unfold put_room.
  now rewrite !(resolveChannel_default app app') by exact Hd; rewrite H.
Qed.

Lemma addEvent_key app c1 c2 raw now :
  resolveChannel app c1 = resolveChannel app c2 →
  addEvent app c1 raw now = addEvent app c2 raw now.
Proof.
  intros H. unfold addEvent.
  destruct (normalizeEvent now raw) as [e|]; [|reflexivity].
  rewrite (getRoom_key app c1 c2 H).
  pose proof (getRoom_default app c2) as Hd.
  destruct (getRoom app c2) as [room app1]. cbn [snd] in Hd.
  destruct (bool_decide _); [reflexivity|].
  f_equal. now apply (put_room_key app).
Qed.

Lemma list_events_key app c1 c2 :
  resolveChannel app c1 = resolveChannel app c2 →
  list_events app c1 = list_events app c2.
Proof. unfold list_events. now intros ->. Qed.

Lemma same_key_same_operations app c1 c2 :
  resolveChannel app c1 = resolveChannel app c2 → same_operations app c1 c2.
Proof.
  intros H. unfold same_operations.
  split; [intros; now apply addEvent_key|].
  split; [now apply list_events_key|].
  repeat split; intros;
    unfold settlements, summary, balances, clearChannel, exportRoom,
      importRoom, normalizeSnapshot;
    cbn [get assoc String.eqb Ascii.eqb Bool.eqb];
    rewrite ?(list_events_key app c1 c2 H), ?H; reflexivity.
Qed.

Lemma constructor_default config app :
  constructor config = Some app →
  defaultChannel app ≠ EmptyString ∧ trim (defaultChannel app) = defaultChannel app
  ∧ (get config "defaultChannel" = JUndefined → defaultChannel app = "0000intercom").
Proof.
  unfold constructor.
  destruct config as [| |b|x|s|l|fields]; try discriminate;
    intros [= <-]; cbn [defaultChannel get];
    try (repeat split; first [discriminate | reflexivity | intros _; reflexivity]).
  destruct (assoc "defaultChannel" fields) as [| |b|x|s|l|f];
    try (repeat split; first [discriminate | reflexivity | intros _; reflexivity]).
  destruct (String.eqb_spec (trim s) EmptyString) as [E | E].
  - repeat split; first [discriminate | reflexivity].
  - repeat split; [exact E | apply trim_idem | discriminate].
Qed.

Lemma resolveChannel_trimmed app s :
  s ≠ EmptyString → trim s = s → resolveChannel app (JStr s) = s.
Proof.
  intros Hne Ht. unfold resolveChannel. rewrite normalizeText_string, Ht.
  apply String.eqb_neq in Hne. now rewrite Hne.
Qed.

(** C9.  A channel identifier that is [null], [undefined], empty or
    made of white space resolves to the default channel, so every
    ledger operation (add, list, balances, settlements, summary, clear,
    export, import) does at it what it does at any identifier of the
    default channel room; the default channel of an instance is never
    empty, it is ['0000intercom'] unless the configuration names
    another, and it is an identifier of its own room. *)
Theorem blank_channel_is_default_room (app : t) (channel : JsVal) :
  blank channel →
  resolveChannel app channel = defaultChannel app
  ∧ (∀ other, resolveChannel app other = defaultChannel app →
              same_operations app channel other)
  ∧ (∀ config app0, constructor config = Some app0 →
       defaultChannel app0 ≠ EmptyString
       ∧ (get config "defaultChannel" = JUndefined →
          defaultChannel app0 = "0000intercom")
       ∧ resolveChannel app0 (JStr (defaultChannel app0)) = defaultChannel app0).
Proof.
  intros Hb. pose proof (resolveChannel_blank app channel Hb) as Hr.
  split; [exact Hr|]. split.
  - intros other Ho. apply same_key_same_operations. congruence.
  - intros config app0 Hc.
    destruct (constructor_default _ _ Hc) as (Hne & Ht & Hd).
    repeat split; [exact Hne | exact Hd | now apply resolveChannel_trimmed].
Qed.

Lemma blank_channel_is_default_room_witness :
  blank (JStr "  ")
  ∧ resolveChannel sample_app (JStr "  ") = "0000intercom".
Proof.
  assert (Hb : blank (JStr "  ")).
  { right. right. exists "  ". split; reflexivity. }
  split; [exact Hb|].
  exact (proj1 (blank_channel_is_default_room sample_app (JStr "  ") Hb)).
Defined.




(** *** Merge *)

Lemma put_room_lookup app channel room :
  rooms (put_room app channel room) !! resolveChannel app channel = Some room.
Proof. unfold put_room. cbn. apply lookup_insert_eq. Qed.




(** C10.  [normalizeEvent] parses [amountCents] by truncation: the
    number 12.9, the string ['12.9'] and the string ['12abc'] are each
    accepted as 12 cents. *)
Theorem normalizeEvent_truncates_amount (now : Z) :
  let raw amount :=
    JObj [("txId", JStr "tx-1"); ("payer", JStr "alice");
          ("amountCents", amount);
          ("split", JArr [JStr "alice"; JStr "bob"]);
          ("ts", JNum (Finite 1700000000000 0))] in
  toString (JNum (Finite 129 (-1))) = "12.9"
  ∧ parseInt (JNum (Finite 129 (-1))) = Some 12
  ∧ parseInt (JStr "12abc") = Some 12
  ∧ amountCents <$> normalizeEvent now (raw (JNum (Finite 129 (-1)))) = Some 12
  ∧ amountCents <$> normalizeEvent now (raw (JStr "12.9")) = Some 12
  ∧ amountCents <$> normalizeEvent now (raw (JStr "12abc")) = Some 12.
Proof. cbv zeta. repeat split; vm_compute; reflexivity. Qed.

(** *** Sorting and sums *)

Lemma insert_sorted_Permutation {A} (cmp : A → A → comparison) x l :
  insert_sorted cmp x l ≡ₚ x :: l.
Proof.
  induction l as [|y r IH]; cbn; [reflexivity|].
  destruct (cmp x y); try reflexivity.
  rewrite IH. apply Permutation_swap.
Qed.

Lemma sort_Permutation {A} (cmp : A → A → comparison) l : sort cmp l ≡ₚ l.
Proof.
  induction l as [|x r IH]; cbn; [reflexivity|].
  rewrite insert_sorted_Permutation. now rewrite IH.
Qed.

Lemma sort_length {A} (cmp : A → A → comparison) l : length (sort cmp l) = length l.
Proof. apply Permutation_length, sort_Permutation. Qed.



(** *** The map of balances *)





(** *** Shares *)

Section Shares.
Variables (base remainder : Z).

End Shares.






(** *** One event of the balance loop *)













(** *** Settlements *)












(** *** The keys and the values of the map of balances *)















(** *** Sorted lists *)

Section Sorted.
Context {A : Type} (cmp : A → A → comparison).
Hypothesis cmp_total : ∀ x y, cmp x y = Gt → cmp y x ≠ Gt.

Lemma HdRel_insert y x l :
  HdRel (before cmp) y l → before cmp y x → HdRel (before cmp) y (insert_sorted cmp x l).
Proof.
  intros Hl Hx. destruct l as [|z r]; cbn; [now constructor|].
  apply HdRel_inv in Hl. destruct (cmp x z); now constructor.
Qed.

Lemma insert_sorted_Sorted x l :
  Sorted (before cmp) l → Sorted (before cmp) (insert_sorted cmp x l).
Proof.
  induction 1 as [|y r Hr IH Hy]; cbn; [repeat constructor|].
  destruct (cmp x y) eqn:E.
  - constructor; [now constructor|]. constructor. unfold before. congruence.
  - constructor; [now constructor|]. constructor. unfold before. congruence.
  - constructor; [exact IH|]. apply HdRel_insert; [exact Hy|]. now apply cmp_total.
Qed.

Lemma sort_Sorted l : Sorted (before cmp) (sort cmp l).
Proof.
  induction l as [|x l IH]; cbn; [constructor|]. now apply insert_sorted_Sorted.
Qed.

Lemma sort_of_Sorted l : Sorted (before cmp) l → sort cmp l = l.
Proof.
  induction 1 as [|x l Hl IH Hx]; cbn; [reflexivity|].
  fold (sort cmp l). rewrite IH.
  destruct Hx as [|y r Hxy]; cbn; [reflexivity|].
  unfold before in Hxy. now destruct (cmp x y).
Qed.

Lemma sort_idem l : sort cmp (sort cmp l) = sort cmp l.
Proof. apply sort_of_Sorted, sort_Sorted. Qed.
End Sorted.




(** *** Sequences of applications *)



Lemma getRoom_room_of app channel :
  (getRoom app channel).1 = room_of app channel.
Proof. unfold getRoom, room_of. now destruct (rooms app !! _). Qed.




Lemma room_of_key app c1 c2 :
  resolveChannel app c1 = resolveChannel app c2 → room_of app c1 = room_of app c2.
Proof. unfold room_of. now intros ->. Qed.

Lemma fresh_room_of app channel :
  fresh_room app channel → room_of app channel = empty_room.
Proof. unfold fresh_room, room_of. now intros [-> | ->]. Qed.

Lemma list_events_room_events app channel :
  list_events app channel = sort by_ts (room_events app channel).
Proof.
  unfold list_events, room_events, room_of. now destruct (rooms app !! _).
Qed.


Lemma normalizeEvent_erase_ts raw now now' :
  erase_ts <$> normalizeEvent now raw = erase_ts <$> normalizeEvent now' raw.
Proof.
  unfold normalizeEvent.
  destruct (negb (truthy raw) || negb (typeof_object raw)); [reflexivity|].
  destruct (parseInt (get raw "amountCents")); [|reflexivity].
  now destruct (_ || _).
Qed.





(** *** Normalized events *)

Lemma normalizeMember_normal v :
  normalizeMember v ≠ EmptyString → normal_member (normalizeMember v).
Proof.
  intros Hne. split; [exact Hne|].
  unfold normalizeMember at 1. rewrite normalizeText_string.
  unfold normalizeMember, normalizeText.
  now rewrite trim_lower, trim_idem, toLowerCase_idem.
Qed.

Lemma normalizeText_trimmed v : trim (normalizeText v) = normalizeText v.
Proof. unfold normalizeText. apply trim_idem. Qed.

Lemma collect_members_spec values : ∀ dedup members,
  NoDup members → Forall normal_member members →
  (∀ m, m ∈ dedup ↔ m ∈ members) →
  NoDup (collect_members values dedup members)
  ∧ Forall normal_member (collect_members values dedup members).
Proof.
  induction values as [|raw rest IH]; intros dedup members Hnd Hn Hd;
    cbn [collect_members]; [now split|].
  destruct (String.eqb_spec (normalizeMember raw) EmptyString) as [E | E]; cbn [orb];
    [now apply IH|].
  destruct (bool_decide_reflect (normalizeMember raw ∈ dedup)) as [Hin | Hout];
    [now apply IH|].
  apply IH.
  - apply NoDup_app. split; [exact Hnd|]. split; [|apply NoDup_singleton].
    intros m Hm Hm'. apply list_elem_of_singleton in Hm'. subst m.
    apply Hout. now apply Hd.
  - apply Forall_app. split; [exact Hn|].
    constructor; [now apply normalizeMember_normal | constructor].
  - intros m. rewrite elem_of_union, elem_of_singleton, elem_of_app,
      list_elem_of_singleton, Hd. tauto.
Qed.

Lemma collect_members_fixed l : ∀ dedup members,
  NoDup l → Forall normal_member l → (∀ m, m ∈ l → m ∉ dedup) →
  collect_members (map JStr l) dedup members = members ++ l.
Proof.
  induction l as [|m l IH]; intros dedup members Hnd Hn Hout; cbn [map collect_members].
  - now rewrite app_nil_r.
  - apply NoDup_cons in Hnd as [Hfirst Hnd]. apply Forall_cons in Hn as [[Hne Hm] Hn].
    rewrite Hm. apply String.eqb_neq in Hne. rewrite Hne. cbn [orb].
    rewrite bool_decide_eq_false_2 by (apply Hout; now left).
    rewrite IH; [now rewrite <- app_assoc | exact Hnd | exact Hn |].
    intros m' Hin. rewrite elem_of_union, elem_of_singleton.
    intros [-> | Hd]; [contradiction|]. apply (Hout m'); [now right | exact Hd].
Qed.

Lemma parseMembers_normal v :
  NoDup (parseMembers v) ∧ Forall normal_member (parseMembers v).
Proof.
  unfold parseMembers. apply collect_members_spec; [constructor | constructor|].
  intros m. rewrite elem_of_nil. split; [apply not_elem_of_empty | tauto].
Qed.

Lemma normalizeEvent_normal now raw e :
  normalizeEvent now raw = Some e → normal_event e.
Proof.
  intros He.
  destruct (normalizeEvent_Some _ _ _ He)
    as (Hid & Hp & Hc & Hs & Hid' & Hp' & Hrange & Hs').
  assert (Hrest : trim (note e) = note e
                  ∧ (∃ m x, ts e = Finite m x) ∧ by_ e ≠ JUndefined).
  { revert He. unfold normalizeEvent.
    destruct (negb (truthy raw) || negb (typeof_object raw)); [discriminate|].
    destruct (parseInt (get raw "amountCents")); [|discriminate].
    destruct (_ || _); [discriminate|]. intros [= <-]. cbn [note ts by_].
    split; [apply normalizeText_trimmed|]. split.
    - destruct (get raw "ts") as [| |b|[|neg|m x]|s|l|f]; eauto.
    - destruct (get raw "by"); discriminate. }
  destruct Hrest as (Hnote & Hts & Hby).
  split; try assumption.
  - split; [exact Hid'|]. rewrite Hid. apply normalizeText_trimmed.
  - rewrite Hp in *. now apply normalizeMember_normal.
  - split; [exact Hs'|]. rewrite Hs. apply parseMembers_normal.
Qed.

Lemma MAX_SAFE_INTEGER_small : MAX_SAFE_INTEGER < 10 ^ 21.
Proof. vm_compute. reflexivity. Qed.

(** Normalizing the object of a normalized event gives the event back. *)
Lemma normalizeEvent_object now e :
  normal_event e → normalizeEvent now (event_object e) = Some e.
Proof.
  intros [[Hid Hidt] [Hp Hpn] Hamount (Hs & Hnd & Hn) Hnote (m & x & Hts) Hby].
  destruct e as [id who cents members text time author]. cbn [txId payer amountCents
    split note ts by_] in *.
  unfold normalizeEvent, event_object.
  cbn [truthy typeof_object negb orb get assoc String.eqb Ascii.eqb Bool.eqb
       txId payer amountCents split note ts by_].
  rewrite normalizeText_string, Hidt, Hpn.
  pose proof MAX_SAFE_INTEGER_small.
  rewrite parseInt_integer by lia.
  assert (Hsplit : parseMembers (JArr (map JStr members)) = members).
  { unfold parseMembers. rewrite collect_members_fixed; auto.
    intros ? _. apply not_elem_of_empty. }
  rewrite Hsplit.
  apply String.eqb_neq in Hid, Hp. rewrite Hid, Hp. cbn [orb isSafeInteger].
  destruct (Z.leb_spec (- MAX_SAFE_INTEGER) cents); [|lia].
  destruct (Z.leb_spec cents MAX_SAFE_INTEGER); [|lia].
  destruct (Z.leb_spec cents 0); [lia|].
  cbn [andb negb orb].
  destruct members as [|m0 ms]; [contradiction|]. cbn [length Nat.eqb].
  rewrite normalizeText_string, Hnote, Hts.
  do 2 f_equal. destruct author; try reflexivity. contradiction.
Qed.

(** *** The invariant is kept *)

Lemma number_compare_total a b :
  number_compare a b = Gt → number_compare b a ≠ Gt.
Proof.
  destruct a as [|n1|m1 e1], b as [|n2|m2 e2]; cbn; try discriminate;
    try (destruct n1; discriminate); try (destruct n2; discriminate).
  - destruct n1, n2; discriminate.
  - rewrite (Z.min_comm e2 e1). intros H.
    rewrite Z.compare_antisym, H. discriminate.
Qed.

Lemma by_ts_total x y : by_ts x y = Gt → by_ts y x ≠ Gt.
Proof. apply number_compare_total. Qed.

Lemma room_ok_empty : room_ok empty_room.
Proof.
  repeat split; cbn; try constructor; intros H.
  - now apply not_elem_of_empty in H.
  - now apply elem_of_nil in H.
Qed.

Lemma room_ok_Permutation room evs :
  evs ≡ₚ events room → room_ok room →
  room_ok {| events := evs; txSeen := txSeen room |}.
Proof.
  intros P (Hnd & Hseen & Hn). repeat split; cbn [events txSeen].
  - now rewrite P.
  - rewrite P. apply Hseen.
  - rewrite P. apply Hseen.
  - now rewrite P.
Qed.

Lemma room_ok_add room e :
  room_ok room → normal_event e → txId e ∉ txSeen room →
  room_ok {| events := events room ++ [e]; txSeen := {[txId e]} ∪ txSeen room |}.
Proof.
  intros (Hnd & Hseen & Hn) He Hnew. split; [|split]; cbn [events txSeen].
  - rewrite map_app. apply NoDup_app. split; [exact Hnd|].
    split; [|apply NoDup_singleton].
    intros id Hin Hin'. cbn in Hin'. apply list_elem_of_singleton in Hin'. subst id.
    apply Hnew. now apply Hseen.
  - intros id. rewrite map_app, elem_of_app, elem_of_union, elem_of_singleton, Hseen.
    cbn. rewrite list_elem_of_singleton. tauto.
  - apply Forall_app. split; [exact Hn|]. constructor; [exact He | constructor].
Qed.

Lemma wf_with_rooms app r :
  wf app → (∀ key room, r !! key = Some room → room_ok room) → wf (with_rooms app r).
Proof.
  intros (H1 & H2 & _) Hr. split; [exact H1|]. split; [exact H2 | exact Hr].
Qed.

Lemma wf_put_room app channel room : wf app → room_ok room → wf (put_room app channel room).
Proof.
  intros Hwf Hroom. apply wf_with_rooms; [exact Hwf|].
  intros key room'. rewrite lookup_insert. case_decide.
  - now intros [= <-].
  - apply Hwf.
Qed.

Lemma wf_getRoom app channel :
  wf app → wf (getRoom app channel).2 ∧ room_ok (getRoom app channel).1.
Proof.
  intros Hwf. unfold getRoom.
  destruct (rooms app !! resolveChannel app channel) as [room|] eqn:E; cbn [fst snd].
  - split; [exact Hwf|]. eapply Hwf. exact E.
  - split; [|apply room_ok_empty]. apply wf_with_rooms; [exact Hwf|].
    intros key room'. rewrite lookup_insert. case_decide.
    + intros [= <-]. apply room_ok_empty.
    + apply Hwf.
Qed.

Lemma wf_addEvent app channel raw now : wf app → wf (addEvent app channel raw now).2.
Proof.
  intros Hwf. unfold addEvent.
  destruct (normalizeEvent now raw) as [e|] eqn:He; [|exact Hwf].
  destruct (wf_getRoom app channel Hwf) as [Hwf1 Hroom].
  destruct (getRoom app channel) as [room app1]. cbn [fst snd] in *.
  destruct (bool_decide_reflect (txId e ∈ txSeen room)) as [Hin | Hout]; [exact Hwf1|].
  cbn [snd]. apply wf_put_room; [exact Hwf1|].
  apply room_ok_add; [exact Hroom | | exact Hout].
  eapply normalizeEvent_normal. exact He.
Qed.

Lemma wf_clearChannel app channel : wf app → wf (clearChannel app channel).2.
Proof.
  intros Hwf. unfold clearChannel. cbn [snd]. apply wf_with_rooms; [exact Hwf|].
  intros key room H. apply lookup_delete_Some in H as [_ H]. eapply Hwf. exact H.
Qed.

Lemma snapshot_loop_normal clock src : ∀ idx evs seen,
  Forall normal_event evs →
  Forall normal_event (snapshot_loop clock idx src evs seen).
Proof.
  induction src as [|raw rest IH]; intros idx evs seen Hn; cbn [snapshot_loop];
    [exact Hn|].
  destruct (normalizeEvent (clock idx) raw) as [e|] eqn:He; [|now apply IH].
  destruct (bool_decide _); apply IH; [exact Hn|].
  apply Forall_app. split; [exact Hn|]. constructor; [|constructor].
  eapply normalizeEvent_normal. exact He.
Qed.

Lemma import_loop_ok incoming : ∀ room added,
  room_ok room → Forall normal_event incoming →
  room_ok (import_loop incoming room added).1.
Proof.
  induction incoming as [|e rest IH]; intros room added Hroom Hn; cbn [import_loop];
    [exact Hroom|].
  apply Forall_cons in Hn as [He Hn].
  destruct (bool_decide_reflect (txId e ∈ txSeen room)) as [Hin | Hout];
    [now apply IH|].
  apply IH; [|exact Hn]. now apply room_ok_add.
Qed.

Lemma wf_importRoom app snapshot options clock :
  wf app → wf (importRoom app snapshot options clock).2.
Proof.
  intros Hwf. unfold importRoom.
  destruct (normalizeSnapshot app clock snapshot) as [normalized|] eqn:Hs; [|exact Hwf].
  assert (Hn : Forall normal_event (snapshot_events normalized)).
  { revert Hs. unfold normalizeSnapshot. destruct (_ || _); [discriminate|].
    intros [= <-]. cbn [snapshot_events]. rewrite sort_Permutation.
    apply snapshot_loop_normal. constructor. }
  assert (Hgoal : ∀ replace : bool,
    wf (let '(room, app1) := getRoom app (JStr (snapshot_channel normalized)) in
        let room1 := if replace then empty_room else room in
        let '(room2, added) := import_loop (snapshot_events normalized) room1 0 in
        (ImportOk (snapshot_channel normalized) added
           (length (sort by_ts (events room2))),
         put_room app1 (JStr (snapshot_channel normalized))
           {| events := sort by_ts (events room2); txSeen := txSeen room2 |})).2).
  { intros replace.
    destruct (wf_getRoom app (JStr (snapshot_channel normalized)) Hwf) as [Hwf1 Hroom].
    destruct (getRoom app (JStr (snapshot_channel normalized))) as [room app1].
    cbn [fst snd] in *.
    assert (Hroom1 : room_ok (if replace then empty_room else room)).
    { destruct replace; [apply room_ok_empty | exact Hroom]. }
    pose proof (import_loop_ok (snapshot_events normalized) _ 0 Hroom1 Hn) as H2.
    destruct (import_loop _ _ 0) as [room2 added]. cbn [fst snd] in *.
    apply wf_put_room; [exact Hwf1|].
    apply (room_ok_Permutation room2); [apply sort_Permutation | exact H2]. }
  destruct options; try exact Hwf; apply Hgoal.
Qed.

Lemma reachable_wf app : reachable app → wf app.
Proof.
  induction 1 as [config app Hc | | |].
  - destruct (constructor_default _ _ Hc) as (Hne & Ht & _).
    split; [exact Hne|]. split; [exact Ht|].
    intros key room. revert Hc. unfold constructor.
    destruct config; try discriminate; intros [= <-]; cbn [rooms];
      rewrite lookup_empty; discriminate.
  - now apply wf_addEvent.
  - now apply wf_clearChannel.
  - now apply wf_importRoom.
Qed.

(** *** Snapshots *)

Lemma resolveChannel_wf app channel :
  wf app →
  resolveChannel app channel ≠ EmptyString
  ∧ trim (resolveChannel app channel) = resolveChannel app channel.
Proof.
  intros (Hne & Ht & _). unfold resolveChannel.
  destruct (String.eqb_spec (normalizeText channel) EmptyString) as [E | E].
  - now split.
  - split; [exact E | apply normalizeText_trimmed].
Qed.

Lemma resolveChannel_idem app channel :
  wf app →
  resolveChannel app (JStr (resolveChannel app channel)) = resolveChannel app channel.
Proof.
  intros Hwf. destruct (resolveChannel_wf app channel Hwf) as [Hne Ht].
  now apply resolveChannel_trimmed.
Qed.

Lemma room_events_ok app channel :
  wf app →
  NoDup (map txId (room_events app channel))
  ∧ Forall normal_event (room_events app channel)
  ∧ ∀ id, id ∈ txSeen (room_of app channel) ↔ id ∈ map txId (room_events app channel).
Proof.
  intros (_ & _ & Hrooms). unfold room_events, room_of.
  destruct (rooms app !! resolveChannel app channel) as [room|] eqn:E; cbn [default].
  - destruct (Hrooms _ _ E) as (? & ? & ?). auto.
  - destruct room_ok_empty as (? & ? & ?). auto.
Qed.

Lemma list_events_ok app channel :
  wf app →
  NoDup (map txId (list_events app channel))
  ∧ Forall normal_event (list_events app channel)
  ∧ Sorted (before by_ts) (list_events app channel)
  ∧ list_events app channel ≡ₚ room_events app channel.
Proof.
  intros Hwf. destruct (room_events_ok app channel Hwf) as (Hnd & Hn & _).
  rewrite list_events_room_events.
  pose proof (sort_Permutation by_ts (room_events app channel)) as P.
  split; [now rewrite P|]. split; [now rewrite P|].
  split; [apply sort_Sorted, by_ts_total | exact P].
Qed.

Lemma snapshot_loop_fixed clock l : ∀ idx evs seen,
  Forall normal_event l → NoDup (map txId l) →
  (∀ e, e ∈ l → txId e ∉ seen) →
  snapshot_loop clock idx (map event_object l) evs seen = evs ++ l.
Proof.
  induction l as [|e l IH]; intros idx evs seen Hn Hnd Hout; cbn [map snapshot_loop].
  - now rewrite app_nil_r.
  - apply Forall_cons in Hn as [He Hn]. cbn [map] in Hnd.
    apply NoDup_cons in Hnd as [Hfirst Hnd].
    rewrite (normalizeEvent_object _ e He).
    rewrite bool_decide_eq_false_2 by (apply Hout; now left).
    rewrite IH; [now rewrite <- app_assoc | exact Hn | exact Hnd |].
    intros e' Hin. rewrite elem_of_union, elem_of_singleton.
    intros [E | Hs].
    + apply Hfirst. rewrite <- E. now apply list_elem_of_fmap_2.
    + apply (Hout e'); [now right | exact Hs].
Qed.

Lemma import_loop_fresh l : ∀ room added,
  NoDup (map txId l) → (∀ e, e ∈ l → txId e ∉ txSeen room) →
  events (import_loop l room added).1 = events room ++ l
  ∧ (import_loop l room added).2 = (added + length l)%nat.
Proof.
  induction l as [|e l IH]; intros room added Hnd Hout; cbn [import_loop].
  - cbn. rewrite app_nil_r. split; [reflexivity | lia].
  - cbn [map] in Hnd. apply NoDup_cons in Hnd as [Hfirst Hnd].
    rewrite bool_decide_eq_false_2 by (apply Hout; now left).
    destruct (IH {| events := events room ++ [e];
                    txSeen := {[txId e]} ∪ txSeen room |} (S added) Hnd) as [E1 E2].
    + intros e' Hin. cbn [txSeen]. rewrite elem_of_union, elem_of_singleton.
      intros [E | Hs].
      * apply Hfirst. rewrite <- E. now apply list_elem_of_fmap_2.
      * apply (Hout e'); [now right | exact Hs].
    + rewrite E1, E2. cbn [events length]. rewrite <- app_assoc. split; [reflexivity | lia].
Qed.

Lemma import_loop_seen l : ∀ room added,
  (∀ e, e ∈ l → txId e ∈ txSeen room) → import_loop l room added = (room, added).
Proof.
  induction l as [|e l IH]; intros room added Hin; cbn [import_loop]; [reflexivity|].
  rewrite bool_decide_eq_true_2 by (apply Hin; now left).
  apply IH. intros e' He'. apply Hin. now right.
Qed.

Lemma normalizeSnapshot_export app channel other clock :
  wf app →
  normalizeSnapshot other clock (exportRoom app channel)
  = Some {| snapshot_channel := resolveChannel app channel;
            snapshot_version := JNum (Finite 1 0);
            snapshot_events := list_events app channel |}.
Proof.
  intros Hwf. destruct (resolveChannel_wf app channel Hwf) as [Hne Ht].
  destruct (list_events_ok app channel Hwf) as (Hnd & Hn & Hsorted & _).
  unfold normalizeSnapshot, exportRoom.
  cbn [truthy typeof_object negb orb get assoc String.eqb Ascii.eqb Bool.eqb].
  rewrite (resolveChannel_trimmed other _ Hne Ht).
  rewrite (list_events_key app (JStr (resolveChannel app channel)) channel)
    by now apply resolveChannel_idem.
  rewrite snapshot_loop_fixed; [|exact Hn | exact Hnd |].
  - rewrite app_nil_l, (sort_of_Sorted by_ts _ Hsorted). reflexivity.
  - intros e _. apply not_elem_of_empty.
Qed.

Lemma list_events_put_room app channel room other :
  resolveChannel app other = resolveChannel app channel →
  list_events (put_room app channel room) other = sort by_ts (events room).
Proof.
  intros H. unfold list_events.
  rewrite (resolveChannel_default app (put_room app channel room)) by reflexivity.
  now rewrite H, put_room_lookup.
Qed.

(** What [importRoom] does with the export of a room, in any instance. *)
Lemma importRoom_export app channel other options clock :
  wf app → options ≠ JNull →
  let key := resolveChannel app channel in
  let replace :=
    match get options "replace" with JBool true => true | _ => false end in
  let room1 := if replace then empty_room else room_of other (JStr key) in
  let merged := import_loop (list_events app channel) room1 0 in
  importRoom other (exportRoom app channel) options clock
  = (ImportOk key merged.2 (length (sort by_ts (events merged.1))),
     put_room (getRoom other (JStr key)).2 (JStr key)
       {| events := sort by_ts (events merged.1); txSeen := txSeen merged.1 |}).
Proof.
  intros Hwf Hopt. cbv zeta. unfold importRoom.
  rewrite (normalizeSnapshot_export app channel other clock Hwf).
  cbn [snapshot_channel snapshot_events].
  pose proof (getRoom_room_of other (JStr (resolveChannel app channel))) as Hr.
  destruct (getRoom other (JStr (resolveChannel app channel))) as [room app1].
  cbn [fst snd] in *. subst room.
  destruct options; try contradiction;
    now destruct (import_loop (list_events app channel) _ 0).
Qed.

(** C6, amended.  Exporting a room and importing the export
    into the same room leaves its list of events, hence their number,
    as it was.  With [replace: true] the room is emptied and refilled,
    and the result reports [added == total ==] the number of events;
    without it nothing is added, [added == 0].  Imported into an empty
    room of any instance, the export gives [added == total ==] the
    original number of events, and that room then lists the same
    events. *)
Theorem snapshot_round_trip (app : t) (channel : JsVal) (clock : nat → Z) :
  wf app →
  let snapshot := exportRoom app channel in
  let key := resolveChannel app channel in
  let n := length (list_events app channel) in
  let replaced := importRoom app snapshot replace_option clock in
  let merged := importRoom app snapshot no_option clock in
  replaced.1 = ImportOk key n n
  ∧ list_events replaced.2 channel = list_events app channel
  ∧ merged.1 = ImportOk key 0 n
  ∧ list_events merged.2 channel = list_events app channel
  ∧ (∀ other options, fresh_room other (JStr key) → options ≠ JNull →
       (importRoom other snapshot options clock).1 = ImportOk key n n
       ∧ list_events (importRoom other snapshot options clock).2 (JStr key)
         = list_events app channel).
Proof.
  intros Hwf. cbv zeta.
  destruct (list_events_ok app channel Hwf) as (Hnd & Hn & Hsorted & P).
  destruct (room_events_ok app channel Hwf) as (_ & _ & Hseen).
  assert (Hfill : ∀ added,
    events (import_loop (list_events app channel) empty_room added).1
      = list_events app channel
    ∧ (import_loop (list_events app channel) empty_room added).2
      = (added + length (list_events app channel))%nat).
  { intros added. apply (import_loop_fresh _ empty_room added Hnd).
    intros e _. apply not_elem_of_empty. }
  assert (Hkey : ∀ app1, defaultChannel app1 = defaultChannel app →
            resolveChannel app1 channel
            = resolveChannel app1 (JStr (resolveChannel app channel))).
  { intros app1 Hd. rewrite !(resolveChannel_default app app1) by exact Hd.
    symmetry. now apply resolveChannel_idem. }
  split; [|split; [|split; [|split]]].
  - rewrite (importRoom_export app channel app replace_option clock Hwf) by discriminate.
    cbn [fst get assoc replace_option String.eqb Ascii.eqb Bool.eqb].
    destruct (Hfill 0%nat) as [-> ->].
    now rewrite (sort_of_Sorted by_ts _ Hsorted).
  - rewrite (importRoom_export app channel app replace_option clock Hwf) by discriminate.
    cbn [snd get assoc replace_option String.eqb Ascii.eqb Bool.eqb].
    rewrite list_events_put_room by (apply Hkey, getRoom_default).
    cbn [events]. destruct (Hfill 0%nat) as [-> _].
    now rewrite !(sort_of_Sorted by_ts _ Hsorted).
  - rewrite (importRoom_export app channel app no_option clock Hwf) by discriminate.
    cbn [fst get assoc no_option].
    rewrite import_loop_seen.
    + cbn [fst snd]. rewrite sort_length.
      rewrite (room_of_key app _ channel) by now apply resolveChannel_idem.
      fold (room_events app channel). now rewrite <- P.
    + intros e He.
      rewrite (room_of_key app _ channel) by now apply resolveChannel_idem.
      apply Hseen. rewrite <- P. now apply list_elem_of_fmap_2.
  - rewrite (importRoom_export app channel app no_option clock Hwf) by discriminate.
    cbn [snd get assoc no_option].
    rewrite list_events_put_room by (apply Hkey, getRoom_default).
    cbn [events]. rewrite import_loop_seen.
    + cbn [fst]. rewrite sort_idem by apply by_ts_total.
      rewrite (room_of_key app _ channel) by now apply resolveChannel_idem.
      symmetry. apply list_events_room_events.
    + intros e He.
      rewrite (room_of_key app _ channel) by now apply resolveChannel_idem.
      apply Hseen. rewrite <- P. now apply list_elem_of_fmap_2.
  - intros other options Hfresh Hopt.
    rewrite (importRoom_export app channel other options clock Hwf Hopt).
    cbn [fst snd]. rewrite (fresh_room_of _ _ Hfresh).
    assert (E : (if match get options "replace" with JBool true => true | _ => false end
                 then empty_room else empty_room) = empty_room)
      by (now destruct (match get options "replace" with JBool true => true | _ => false end)).
    rewrite E. destruct (Hfill 0%nat) as [-> ->].
    rewrite (sort_of_Sorted by_ts _ Hsorted). split; [reflexivity|].
    rewrite list_events_put_room by reflexivity.
    cbn [events]. now apply sort_of_Sorted.
Qed.

Lemma sample_trip_wf : wf sample_trip.
Proof.
  apply reachable_wf. unfold sample_trip. cbn [addEvents].
  do 2 apply reach_add. now apply (reach_new (JObj [])).
Qed.

Lemma snapshot_round_trip_witness :
  wf sample_trip
  ∧ (importRoom sample_trip (exportRoom sample_trip (JStr "trip")) no_option (λ _, 0)).1
    = ImportOk "trip" 0 2.
Proof.
  split; [exact sample_trip_wf|].
  exact (proj1 (proj2 (proj2
           (snapshot_round_trip sample_trip (JStr "trip") (λ _, 0) sample_trip_wf)))).
Defined.

(** C6 does not hold for [added] under [replace: true]: re-importing the
    export of a room of two events reports two events added, not none. *)
Lemma replace_import_reports_added :
  length (list_events sample_trip (JStr "trip")) = 2%nat
  ∧ (importRoom sample_trip (exportRoom sample_trip (JStr "trip"))
       replace_option (λ _, 0)).1 = ImportOk "trip" 2 2
  ∧ ¬ ∃ total,
        (importRoom sample_trip (exportRoom sample_trip (JStr "trip"))
           replace_option (λ _, 0)).1 = ImportOk "trip" 0 total.
Proof.
  assert (E : (importRoom sample_trip (exportRoom sample_trip (JStr "trip"))
                 replace_option (λ _, 0)).1 = ImportOk "trip" 2 2)
    by (vm_compute; reflexivity).
  split; [vm_compute; reflexivity|]. split; [exact E|].
  intros [total H]. rewrite E in H. discriminate.
Qed.

End ExpenseSplitFacts.

(** * Further properties of the ledger *)

Module LedgerFacts.
Import JsString JsValue ExpenseSplit JsStringFacts JsValueFacts ExpenseSplitFacts.
Local Open Scope list_scope.
Local Open Scope Z_scope.

(** ** Events and member lists *)

(** X1.  Normalizing is idempotent: the object of an event that
    [normalizeEvent] returned normalizes to that same event, whatever the
    clock reads. *)
Theorem normalizeEvent_round_trip (now now' : Z) (raw : JsVal) (e : Event) :
  normalizeEvent now raw = Some e →
  normalizeEvent now' (event_object e) = Some e
  ∧ valid_event (event_object e)
  ∧ tx_of (event_object e) = txId e.
Proof.
  intros He. pose proof (normalizeEvent_normal _ _ _ He) as Hn.
  pose proof (normalizeEvent_object now' e Hn) as Hfix.
  split; [exact Hfix|]. split.
  - apply (normalizeEvent_valid now'). rewrite Hfix. eauto.
  - now destruct (normalizeEvent_Some _ _ _ Hfix) as [-> _].
Qed.

Lemma normalizeEvent_round_trip_witness :
  ∃ e, normalizeEvent 7 (sample_event "t1" "Alice " 3000 "alice, Bob" 5) = Some e
       ∧ normalizeEvent 9 (event_object e) = Some e.
Proof.
  eexists. split; [vm_compute; reflexivity|].
  refine (proj1 (normalizeEvent_round_trip 7 9
            (sample_event "t1" "Alice " 3000 "alice, Bob" 5) _ _)).
  vm_compute. reflexivity.
Defined.

Lemma first_occurrences_snoc l x :
  first_occurrences (l ++ [x])
  = if decide (x ∈ l) then first_occurrences l else first_occurrences l ++ [x].
Proof.
  unfold first_occurrences. rewrite reverse_app, reverse_singleton.
  change ([x] ++ reverse l) with (x :: reverse l).
  change (remove_dups (x :: reverse l))
    with (if decide_rel elem_of x (reverse l) then remove_dups (reverse l)
          else x :: remove_dups (reverse l)).
  destruct (decide_rel elem_of x (reverse l)) as [Hin | Hout].
  - rewrite decide_True by now apply elem_of_reverse. reflexivity.
  - rewrite decide_False by (intros H; apply Hout; now apply elem_of_reverse).
    now rewrite reverse_cons.
Qed.

Lemma elem_of_first_occurrences l x : x ∈ first_occurrences l ↔ x ∈ l.
Proof.
  unfold first_occurrences. now rewrite elem_of_reverse, elem_of_remove_dups, elem_of_reverse.
Qed.

Lemma collect_members_first values : ∀ dedup processed,
  (∀ m, m ∈ dedup ↔ m ∈ processed) →
  collect_members values dedup (first_occurrences processed)
  = first_occurrences
      (processed ++ filter (λ m, m ≠ EmptyString) (normalizeMember <$> values)).
Proof.
  induction values as [|raw rest IH]; intros dedup processed Hd;
    cbn [collect_members fmap list_fmap].
  - now rewrite filter_nil, app_nil_r.
  - rewrite filter_cons.
    destruct (String.eqb_spec (normalizeMember raw) EmptyString) as [E | E]; cbn [orb].
    + rewrite decide_False by (intros H; now apply H). now apply IH.
    + rewrite decide_True by exact E.
      replace (processed ++ normalizeMember raw
                 :: filter (λ m, m ≠ EmptyString) (normalizeMember <$> rest))
        with ((processed ++ [normalizeMember raw])
                ++ filter (λ m, m ≠ EmptyString) (normalizeMember <$> rest))
        by now rewrite <- app_assoc.
      destruct (bool_decide_reflect (normalizeMember raw ∈ dedup)) as [Hin | Hout].
      * rewrite <- (IH dedup (processed ++ [normalizeMember raw])).
        -- rewrite first_occurrences_snoc, decide_True by now apply Hd. reflexivity.
        -- intros m. rewrite Hd, elem_of_app, list_elem_of_singleton.
           split; [tauto|]. intros [? | ->]; [assumption | now apply Hd].
      * rewrite <- (IH ({[normalizeMember raw]} ∪ dedup) (processed ++ [normalizeMember raw])).
        -- rewrite first_occurrences_snoc, decide_False
             by (intros H; apply Hout; now apply Hd). reflexivity.
        -- intros m. rewrite elem_of_union, elem_of_singleton, Hd, elem_of_app,
             list_elem_of_singleton. tauto.
Qed.

Lemma parseMembers_first value :
  parseMembers value
  = first_occurrences (filter (λ m, m ≠ EmptyString) (member_candidates value)).
Proof.
  unfold parseMembers, member_candidates.
  rewrite <- (app_nil_l (filter _ _)).
  rewrite <- (collect_members_first _ ∅ []); [reflexivity|].
  intros m. rewrite elem_of_nil. split; [apply not_elem_of_empty | tauto].
Qed.

(** X2.  [parseMembers] returns the normalized names of its input that
    are not empty, each once, at the place of its first occurrence; every
    name it returns is trimmed and lower-cased; anything but an array or
    a string gives no member. *)
Theorem parseMembers_keeps_first_occurrences (value : JsVal) :
  parseMembers value
  = first_occurrences (filter (λ m, m ≠ EmptyString) (member_candidates value))
  ∧ NoDup (parseMembers value)
  ∧ (∀ m, m ∈ parseMembers value ↔ m ≠ EmptyString ∧ m ∈ member_candidates value)
  ∧ Forall (λ m, m ≠ EmptyString ∧ toLowerCase (trim m) = m) (parseMembers value)
  ∧ ((∀ items, value ≠ JArr items) → (∀ s, value ≠ JStr s) → parseMembers value = []).
Proof.
  split; [apply parseMembers_first|]. split; [apply parseMembers_normal|].
  split; [|split].
  - intros m. rewrite parseMembers_first, elem_of_first_occurrences, list_elem_of_filter.
    reflexivity.
  - eapply Forall_impl; [apply parseMembers_normal|]. intros m [Hne Hm].
    split; [exact Hne|]. unfold normalizeMember in Hm.
    now rewrite normalizeText_string in Hm.
  - intros Harr Hstr. destruct value; try reflexivity.
    + now destruct (Hstr s).
    + now destruct (Harr items).
Qed.

(** ** Merge in any state *)

Lemma getRoom_lookup app channel :
  rooms (getRoom app channel).2 !! resolveChannel app channel
  = Some (room_of app channel).
Proof.
  unfold getRoom, room_of.
  destruct (rooms app !! resolveChannel app channel) eqn:E; cbn; [exact E|].
  apply lookup_insert_eq.
Qed.

Lemma getRoom_other app channel key :
  key ≠ resolveChannel app channel →
  rooms (getRoom app channel).2 !! key = rooms app !! key.
Proof.
  intros Hne. unfold getRoom.
  destruct (rooms app !! resolveChannel app channel); cbn; [reflexivity|].
  now apply lookup_insert_ne.
Qed.

Lemma addEvent_duplicate app channel raw now e room :
  rooms app !! resolveChannel app channel = Some room →
  normalizeEvent now raw = Some e → txId e ∈ txSeen room →
  addEvent app channel raw now = (AddOk true e, app).
Proof.
  intros Hroom He Hin. unfold addEvent, getRoom. rewrite He, Hroom.
  now rewrite bool_decide_eq_true_2.
Qed.

Lemma addEvent_stored app channel raw now e :
  normalizeEvent now raw = Some e →
  ∃ room, rooms (addEvent app channel raw now).2 !! resolveChannel app channel = Some room
          ∧ txId e ∈ txSeen room.
Proof.
  intros He. unfold addEvent. rewrite He.
  pose proof (getRoom_lookup app channel) as Hl.
  pose proof (getRoom_room_of app channel) as Hr.
  pose proof (getRoom_default app channel) as Hd.
  destruct (getRoom app channel) as [room app1]. cbn [fst snd] in *. subst room.
  destruct (bool_decide_reflect (txId e ∈ txSeen (room_of app channel))) as [Hin | Hout].
  - exists (room_of app channel). now split.
  - eexists. cbn [snd]. split.
    + rewrite <- (resolveChannel_default app app1 channel Hd). apply put_room_lookup.
    + cbn. apply elem_of_union. left. now apply elem_of_singleton.
Qed.

Lemma addEvent_default app channel raw now :
  defaultChannel (addEvent app channel raw now).2 = defaultChannel app.
Proof.
  unfold addEvent. destruct (normalizeEvent now raw); [|reflexivity].
  pose proof (getRoom_default app channel) as Hd.
  destruct (getRoom app channel) as [room app1]. cbn [snd] in Hd.
  now destruct (bool_decide _).
Qed.


(** ** One room at a time *)

Lemma put_room_other app channel room key :
  key ≠ resolveChannel app channel →
  rooms (put_room app channel room) !! key = rooms app !! key.
Proof. intros Hne. unfold put_room. cbn. now apply lookup_insert_ne. Qed.

Lemma addEvent_other app channel raw now key :
  key ≠ resolveChannel app channel →
  rooms (addEvent app channel raw now).2 !! key = rooms app !! key.
Proof.
  intros Hne. unfold addEvent. destruct (normalizeEvent now raw); [|reflexivity].
  pose proof (getRoom_other app channel key Hne) as Ho.
  pose proof (getRoom_default app channel) as Hd.
  destruct (getRoom app channel) as [room app1]. cbn [snd] in *.
  destruct (bool_decide _); [exact Ho|]. cbn [snd].
  rewrite put_room_other; [exact Ho|].
  now rewrite (resolveChannel_default app app1 channel Hd).
Qed.

(** X4.  Every mutation touches one room: [addEvent], [clearChannel] and
    [importRoom] leave the room under any other key, and the default
    channel, as they were. *)
Theorem mutations_touch_one_room (app : t) (channel raw snapshot options : JsVal)
    (now : Z) (clock : nat → Z) (key : string) :
  (key ≠ resolveChannel app channel →
     rooms (addEvent app channel raw now).2 !! key = rooms app !! key
     ∧ rooms (clearChannel app channel).2 !! key = rooms app !! key)
  ∧ (key ≠ resolveChannel app (JStr (resolveChannel app (get snapshot "channel"))) →
     rooms (importRoom app snapshot options clock).2 !! key = rooms app !! key)
  ∧ defaultChannel (addEvent app channel raw now).2 = defaultChannel app
  ∧ defaultChannel (clearChannel app channel).2 = defaultChannel app
  ∧ defaultChannel (importRoom app snapshot options clock).2 = defaultChannel app.
Proof.
  assert (Himport : ∀ normalized replace,
    snapshot_channel normalized = resolveChannel app (get snapshot "channel") →
    let result :=
      (let '(room, app1) := getRoom app (JStr (snapshot_channel normalized)) in
       let room1 := if replace : bool then empty_room else room in
       let '(room2, added) := import_loop (snapshot_events normalized) room1 0 in
       (ImportOk (snapshot_channel normalized) added
          (length (sort by_ts (events room2))),
        put_room app1 (JStr (snapshot_channel normalized))
          {| events := sort by_ts (events room2); txSeen := txSeen room2 |})) in
    (key ≠ resolveChannel app (JStr (resolveChannel app (get snapshot "channel"))) →
     rooms result.2 !! key = rooms app !! key)
    ∧ defaultChannel result.2 = defaultChannel app).
  { intros normalized replace Hch. cbv zeta. rewrite Hch.
    set (c := JStr (resolveChannel app (get snapshot "channel"))).
    pose proof (getRoom_other app c key) as Ho.
    pose proof (getRoom_default app c) as Hd.
    destruct (getRoom app c) as [room app1]. cbn [snd] in *.
    destruct (import_loop _ _ 0) as [room2 added]. cbn [snd]. split.
    - intros Hne. rewrite put_room_other; [now apply Ho|].
      now rewrite (resolveChannel_default app app1 c Hd).
    - exact Hd. }
  assert (Hi : (key ≠ resolveChannel app (JStr (resolveChannel app (get snapshot "channel"))) →
                rooms (importRoom app snapshot options clock).2 !! key = rooms app !! key)
               ∧ defaultChannel (importRoom app snapshot options clock).2
                 = defaultChannel app).
  { unfold importRoom.
    destruct (normalizeSnapshot app clock snapshot) as [normalized|] eqn:Hs;
      [|now split].
    assert (Hch : snapshot_channel normalized = resolveChannel app (get snapshot "channel")).
    { revert Hs. unfold normalizeSnapshot. destruct (_ || _); [discriminate|].
      now intros [= <-]. }
    destruct options; try (now split); apply (Himport normalized _ Hch). }
  split; [|split; [exact (proj1 Hi)|split; [apply addEvent_default|split; [reflexivity|exact (proj2 Hi)]]]].
  intros Hne. split; [now apply addEvent_other|].
  unfold clearChannel. cbn. now apply lookup_delete_ne.
Qed.

(** ** Clearing *)


(** ** The invariant of the rooms *)

Lemma sample_trip_reachable : reachable sample_trip.
Proof.
  unfold sample_trip. cbn [addEvents].
  do 2 apply reach_add. now apply (reach_new (JObj [])).
Qed.

(** X6.  In every instance the class can reach, every room keeps its
    invariant: no two stored events share a [txId], the index [txSeen]
    holds exactly the [txId]s of the stored events, and every stored
    event is a normalized one, which [normalizeEvent] accepts again. *)
Theorem reachable_rooms_are_consistent (app : t) (channel : JsVal) :
  reachable app →
  NoDup (map txId (room_events app channel))
  ∧ (∀ id, id ∈ txSeen (room_of app channel) ↔ id ∈ map txId (room_events app channel))
  ∧ Forall normal_event (room_events app channel)
  ∧ Forall (λ e, valid_event (event_object e)) (room_events app channel)
  ∧ (∀ id, (∃ e, e ∈ list_events app channel ∧ txId e = id)
           ↔ id ∈ txSeen (room_of app channel)).
Proof.
  intros Hreach. pose proof (reachable_wf app Hreach) as Hwf.
  destruct (room_events_ok app channel Hwf) as (Hnd & Hn & Hseen).
  split; [exact Hnd|]. split; [exact Hseen|]. split; [exact Hn|]. split.
  - eapply Forall_impl; [exact Hn|]. intros e He.
    apply (normalizeEvent_valid 0). rewrite (normalizeEvent_object 0 e He). eauto.
  - intros id. rewrite Hseen, list_events_room_events. split.
    + intros (e & Hin & <-). rewrite sort_Permutation in Hin.
      now apply list_elem_of_fmap_2.
    + intros Hin. apply list_elem_of_fmap in Hin as (e & -> & Hin).
      exists e. split; [now rewrite sort_Permutation | reflexivity].
Qed.

Lemma reachable_rooms_are_consistent_witness :
  reachable sample_trip ∧ NoDup (map txId (room_events sample_trip (JStr "trip"))).
Proof.
  split; [exact sample_trip_reachable|].
  exact (proj1 (reachable_rooms_are_consistent sample_trip (JStr "trip")
                  sample_trip_reachable)).
Defined.

(** ** Listing *)

Lemma number_compare_scaled m1 e1 m2 e2 E :
  E ≤ e1 → E ≤ e2 →
  number_compare (Finite m1 e1) (Finite m2 e2)
  = (m1 * 10 ^ (e1 - E) ?= m2 * 10 ^ (e2 - E)).
Proof.
  intros H1 H2. cbn [number_compare].
  set (e := Z.min e1 e2).
  assert (He : E ≤ e) by (subst e; lia).
  assert (He1 : e ≤ e1) by (subst e; lia).
  assert (He2 : e ≤ e2) by (subst e; lia).
  replace (e1 - E) with ((e1 - e) + (e - E)) by lia.
  replace (e2 - E) with ((e2 - e) + (e - E)) by lia.
  rewrite !Z.pow_add_r by lia. rewrite !Z.mul_assoc.
  assert (Hp : 0 < 10 ^ (e - E)) by (apply Z.pow_pos_nonneg; lia).
  apply Zmult_compare_compat_r. lia.
Qed.

(** Two events at the time of a third are not apart. *)
Lemma same_time_not_after (a y : Event) m e :
  (∃ ma ea, ts a = Finite ma ea) → (∃ my ey, ts y = Finite my ey) →
  number_compare (ts a) (Finite m e) = Eq →
  number_compare (ts y) (Finite m e) = Eq →
  by_ts a y ≠ Gt.
Proof.
  intros (ma & ea & Ha) (my & ey & Hy). unfold by_ts. rewrite Ha, Hy.
  set (E := Z.min (Z.min ea ey) e).
  rewrite (number_compare_scaled ma ea m e E),
          (number_compare_scaled my ey m e E),
          (number_compare_scaled ma ea my ey E) by (subst E; lia).
  rewrite !Z.compare_eq_iff. intros -> <-. rewrite Z.compare_refl. discriminate.
Qed.

Section Stable.
Context {A : Type} (cmp : A → A → comparison) (P : A → Prop) `{∀ x, Decision (P x)}.

Lemma filter_insert_sorted a l :
  (∀ y, y ∈ l → P a → P y → cmp a y ≠ Gt) →
  filter P (insert_sorted cmp a l) = filter P (a :: l).
Proof.
  induction l as [|y r IH]; intros Hl; [reflexivity|].
  cbn [insert_sorted]. destruct (cmp a y) eqn:E; try reflexivity.
  rewrite filter_cons, IH by (intros z Hz; apply Hl; now right).
  rewrite !(filter_cons _ a), (filter_cons _ y).
  destruct (decide (P a)) as [Pa | Pa]; destruct (decide (P y)) as [Py | Py];
    try reflexivity.
  exfalso. apply (Hl y); [now left | assumption | assumption | exact E].
Qed.

(** The elements of a class that the order does not tell apart stay in
    their first order. *)
Lemma filter_sort l :
  (∀ x y, x ∈ l → y ∈ l → P x → P y → cmp x y ≠ Gt) →
  filter P (sort cmp l) = filter P l.
Proof.
  induction l as [|a l IH]; intros Hl; [reflexivity|].
  cbn [sort foldr]. fold (sort cmp l).
  rewrite filter_insert_sorted.
  - rewrite !(filter_cons _ a), IH; [reflexivity|].
    intros x y Hx Hy. apply Hl; now right.
  - intros y Hy. rewrite sort_Permutation in Hy. apply Hl; [now left | now right].
Qed.
End Stable.

(** X7.  [list] returns the stored events of the room, all of them and no
    other, in non-decreasing order of [ts]; events of equal [ts] stay in
    their order of arrival, so a room whose events arrived in time order
    is listed as stored. *)
Theorem list_is_a_stable_sort_by_ts (app : t) (channel : JsVal) :
  wf app →
  list_events app channel ≡ₚ room_events app channel
  ∧ Sorted (before by_ts) (list_events app channel)
  ∧ (∀ m e,
       filter (λ event, number_compare (ts event) (Finite m e) = Eq)
              (list_events app channel)
       = filter (λ event, number_compare (ts event) (Finite m e) = Eq)
                (room_events app channel))
  ∧ (Sorted (before by_ts) (room_events app channel) →
     list_events app channel = room_events app channel).
Proof.
  intros Hwf. destruct (room_events_ok app channel Hwf) as (_ & Hn & _).
  rewrite list_events_room_events.
  split; [apply sort_Permutation|]. split; [apply sort_Sorted, by_ts_total|]. split.
  - intros m e. apply filter_sort. intros x y Hx Hy Px Py.
    rewrite Forall_forall in Hn.
    apply (same_time_not_after x y m e); try assumption.
    + apply Hn. exact Hx.
    + apply Hn. exact Hy.
  - apply sort_of_Sorted.
Qed.

Lemma list_is_a_stable_sort_by_ts_witness :
  wf sample_trip
  ∧ list_events sample_trip (JStr "trip") ≡ₚ room_events sample_trip (JStr "trip").
Proof.
  split; [exact sample_trip_wf|].
  exact (proj1 (list_is_a_stable_sort_by_ts sample_trip (JStr "trip") sample_trip_wf)).
Defined.

(** ** Balances in closed form *)




(** ** Settlements, member by member *)













(** ** The summary *)




(** ** Importing any snapshot *)

Lemma elem_of_sort {A} (cmp : A → A → comparison) (l : list A) (x : A) :
  x ∈ sort cmp l ↔ x ∈ l.
Proof. apply elem_of_Permutation_proper, sort_Permutation. Qed.

Lemma importRoom_normalized app snapshot options clock normalized :
  normalizeSnapshot app clock snapshot = Some normalized → options ≠ JNull →
  let channel := JStr (snapshot_channel normalized) in
  let replace :=
    match get options "replace" with JBool true => true | _ => false end in
  let room1 := if replace then empty_room else room_of app channel in
  let merged := import_loop (snapshot_events normalized) room1 0 in
  importRoom app snapshot options clock
  = (ImportOk (snapshot_channel normalized) merged.2
       (length (sort by_ts (events merged.1))),
     put_room (getRoom app channel).2 channel
       {| events := sort by_ts (events merged.1); txSeen := txSeen merged.1 |}).
Proof.
  intros Hs Hopt. cbv zeta. unfold importRoom. rewrite Hs.
  pose proof (getRoom_room_of app (JStr (snapshot_channel normalized))) as Hr.
  destruct (getRoom app (JStr (snapshot_channel normalized))) as [room app1].
  cbn [fst snd] in *. subst room.
  destruct options; try contradiction;
    now destruct (import_loop (snapshot_events normalized) _ 0).
Qed.

Lemma importRoom_ok_inv app snapshot options clock ch added total :
  (importRoom app snapshot options clock).1 = ImportOk ch added total →
  options ≠ JNull
  ∧ ∃ normalized, normalizeSnapshot app clock snapshot = Some normalized.
Proof.
  unfold importRoom.
  destruct (normalizeSnapshot app clock snapshot) as [normalized|]; [|discriminate].
  intros H. split; [|eauto]. intros ->. discriminate.
Qed.

Lemma normalizeSnapshot_Some app clock snapshot normalized :
  normalizeSnapshot app clock snapshot = Some normalized →
  snapshot_channel normalized = resolveChannel app (get snapshot "channel")
  ∧ snapshot_events normalized
    = sort by_ts (snapshot_loop clock 0 (snapshot_entries snapshot) [] ∅).
Proof.
  unfold normalizeSnapshot. destruct (_ || _); [discriminate|].
  intros [= <-]. split; reflexivity.
Qed.

Lemma import_loop_count incoming : ∀ room added,
  (length (events (import_loop incoming room added).1) + added
   = length (events room) + (import_loop incoming room added).2)%nat
  ∧ (added ≤ (import_loop incoming room added).2 ≤ added + length incoming)%nat
  ∧ (∀ e, e ∈ events room → e ∈ events (import_loop incoming room added).1)
  ∧ (∀ id, id ∈ txSeen room → id ∈ txSeen (import_loop incoming room added).1)
  ∧ (∀ e, e ∈ incoming → txId e ∈ txSeen (import_loop incoming room added).1).
Proof.
  induction incoming as [|e rest IH]; intros room added; cbn [import_loop].
  - cbn. repeat split; try lia; auto. intros e H. now apply elem_of_nil in H.
  - destruct (bool_decide_reflect (txId e ∈ txSeen room)) as [Hin | Hout].
    + destruct (IH room added) as (H1 & H2 & H3 & H4 & H5).
      repeat split; try (cbn [length]; lia); auto.
      intros e' He'. apply elem_of_cons in He' as [-> | He']; auto.
    + destruct (IH {| events := events room ++ [e];
                      txSeen := {[txId e]} ∪ txSeen room |} (S added))
        as (H1 & H2 & H3 & H4 & H5).
      cbn [events txSeen] in *. rewrite length_app in H1. cbn [length] in *.
      repeat split; try lia.
      * intros e' He'. apply H3, elem_of_app. now left.
      * intros id Hid. apply H4, elem_of_union. now right.
      * intros e' He'. apply elem_of_cons in He' as [-> | He']; [|now apply H5].
        apply H4, elem_of_union. left. now apply elem_of_singleton.
Qed.

Lemma snapshot_loop_length clock src : ∀ idx evs seen,
  (length (snapshot_loop clock idx src evs seen) ≤ length evs + length src)%nat.
Proof.
  induction src as [|raw rest IH]; intros idx evs seen; cbn [snapshot_loop length]; [lia|].
  destruct (normalizeEvent (clock idx) raw) as [e|].
  - destruct (bool_decide _).
    + specialize (IH (S idx) evs seen). lia.
    + specialize (IH (S idx) (evs ++ [e]) ({[txId e]} ∪ seen)).
      rewrite length_app in IH. cbn [length] in IH. lia.
  - specialize (IH (S idx) evs seen). lia.
Qed.

(** X11.  The counts [importRoom] reports are the real ones: [total] is
    the number of events the room lists afterwards and [added] is at most
    the number of entries of the snapshot; a merge ([replace] not [true])
    keeps every event the room listed and adds [added] to their number;
    a replacement leaves exactly the [added] events. *)
Theorem importRoom_reports_true_counts (app : t) (snapshot options : JsVal)
    (clock : nat → Z) (ch : string) (added total : nat) :
  (importRoom app snapshot options clock).1 = ImportOk ch added total →
  let after := (importRoom app snapshot options clock).2 in
  ch = resolveChannel app (get snapshot "channel")
  ∧ total = length (list_events after (JStr ch))
  ∧ (added ≤ length (snapshot_entries snapshot))%nat
  ∧ (get options "replace" = JBool true → total = added)
  ∧ (get options "replace" ≠ JBool true →
     total = (length (list_events app (JStr ch)) + added)%nat
     ∧ ∀ e, e ∈ list_events app (JStr ch) → e ∈ list_events after (JStr ch)).
Proof.
  intros Hok. cbv zeta.
  destruct (importRoom_ok_inv _ _ _ _ _ _ _ Hok) as (Hopt & normalized & Hs).
  destruct (normalizeSnapshot_Some _ _ _ _ Hs) as [Hch Hev].
  rewrite (importRoom_normalized app snapshot options clock normalized Hs Hopt) in *.
  cbn [fst snd] in *. injection Hok as <- <- <-.
  set (c := JStr (snapshot_channel normalized)) in *.
  set (replace := match get options "replace" with JBool true => true | _ => false end).
  set (room1 := if replace then empty_room else room_of app c).
  destruct (import_loop_count (snapshot_events normalized) room1 0)
    as (Hcount & Hrange & Hkeep & _ & _).
  assert (Hlen : (length (snapshot_events normalized) ≤ length (snapshot_entries snapshot))%nat).
  { rewrite Hev, sort_length. pose proof (snapshot_loop_length clock
      (snapshot_entries snapshot) 0 [] ∅) as H. cbn [length] in H. lia. }
  split; [exact Hch|]. split.
  { rewrite list_events_put_room by reflexivity. cbn [events].
    now rewrite !sort_length. }
  split; [lia|]. split.
  - intros Hr. subst replace room1. rewrite Hr in *. cbn [events empty_room length] in *.
    rewrite sort_length. lia.
  - intros Hr.
    assert (Hfalse : replace = false).
    { subst replace. destruct (get options "replace") as [| |[]| | | |]; try reflexivity.
      contradiction. }
    subst room1. rewrite Hfalse in *.
    rewrite list_events_room_events. fold c. unfold room_events. split.
    + rewrite !sort_length. lia.
    + intros e He. rewrite list_events_put_room by reflexivity. cbn [events].
      apply elem_of_sort in He. rewrite !elem_of_sort. now apply Hkeep.
Qed.

Lemma importRoom_reports_true_counts_witness :
  (importRoom sample_trip sample_snapshot no_option (λ _, 0)).1 = ImportOk "trip" 1 3
  ∧ 3%nat = length (list_events
                      (importRoom sample_trip sample_snapshot no_option (λ _, 0)).2
                      (JStr "trip")).
Proof.
  assert (H : (importRoom sample_trip sample_snapshot no_option (λ _, 0)).1
              = ImportOk "trip" 1 3) by (vm_compute; reflexivity).
  split; [exact H|].
  exact (proj1 (proj2 (importRoom_reports_true_counts _ _ _ _ _ _ _ H))).
Defined.

Lemma txId_erase_ts e : txId (erase_ts e) = txId e.
Proof. now destruct e. Qed.

Lemma snapshot_loop_erased clock clock' src : ∀ idx idx' evs evs' seen,
  map erase_ts evs = map erase_ts evs' →
  map erase_ts (snapshot_loop clock idx src evs seen)
  = map erase_ts (snapshot_loop clock' idx' src evs' seen).
Proof.
  induction src as [|raw rest IH]; intros idx idx' evs evs' seen Hevs;
    cbn [snapshot_loop]; [exact Hevs|].
  pose proof (normalizeEvent_erase_ts raw (clock idx) (clock' idx')) as He.
  destruct (normalizeEvent (clock idx) raw) as [e|],
           (normalizeEvent (clock' idx') raw) as [e'|]; try discriminate He.
  - change (Some (erase_ts e) = Some (erase_ts e')) in He.
    assert (He' : erase_ts e = erase_ts e') by congruence. clear He.
    assert (Hid : txId e = txId e').
    { rewrite <- (txId_erase_ts e), He'. apply txId_erase_ts. }
    rewrite Hid. destruct (bool_decide _); [now apply IH|].
    apply IH. rewrite !map_app. cbn [map]. now rewrite Hevs, He'.
  - now apply IH.
Qed.

Lemma import_loop_nothing incoming room added :
  (∀ e, e ∈ incoming → txId e ∈ txSeen room) →
  import_loop incoming room added = (room, added).
Proof.
  induction incoming as [|e rest IH]; intros H; cbn [import_loop]; [reflexivity|].
  rewrite bool_decide_eq_true_2 by (apply H; left).
  apply IH. intros e' He'. apply H. now right.
Qed.

(** X12.  Importing the same snapshot a second time, as a merge, adds
    nothing: the second import reports [added = 0] and the same total,
    and leaves the instance as the first import left it, whatever the
    options of the first import and the clocks of the two. *)
Theorem importRoom_again_adds_nothing (app : t) (snapshot options : JsVal)
    (clock clock' : nat → Z) (ch : string) (added total : nat) :
  (importRoom app snapshot options clock).1 = ImportOk ch added total →
  importRoom (importRoom app snapshot options clock).2 snapshot no_option clock'
  = (ImportOk ch 0 total, (importRoom app snapshot options clock).2).
Proof.
  intros Hok.
  destruct (importRoom_ok_inv _ _ _ _ _ _ _ Hok) as (Hopt & normalized & Hs).
  destruct (normalizeSnapshot_Some _ _ _ _ Hs) as [Hch Hev].
  rewrite (importRoom_normalized app snapshot options clock normalized Hs Hopt) in *.
  cbn [fst snd] in *. injection Hok as <- <- <-.
  set (c := JStr (snapshot_channel normalized)) in *.
  set (room1 := if match get options "replace" with JBool true => true | _ => false end
                then empty_room else room_of app c) in *.
  destruct (import_loop_count (snapshot_events normalized) room1 0)
    as (_ & _ & _ & _ & Hseen).
  set (merged := import_loop (snapshot_events normalized) room1 0) in *.
  set (room3 := {| events := sort by_ts (events merged.1); txSeen := txSeen merged.1 |}).
  set (app1 := put_room (getRoom app c).2 c room3).
  assert (Hdefault : defaultChannel app1 = defaultChannel app).
  { subst app1. unfold put_room, getRoom.
    destruct (rooms app !! resolveChannel app c); reflexivity. }
  assert (Hres : ∀ v, resolveChannel app1 v = resolveChannel app v).
  { intros v. now apply resolveChannel_default. }
  assert (Hlookup : rooms app1 !! resolveChannel app1 c = Some room3).
  { rewrite (resolveChannel_default (getRoom app c).2 app1) by reflexivity.
    apply put_room_lookup. }
  assert (Hs' : ∃ normalized', normalizeSnapshot app1 clock' snapshot = Some normalized'
                ∧ snapshot_channel normalized' = snapshot_channel normalized
                ∧ map erase_ts (snapshot_loop clock' 0 (snapshot_entries snapshot) [] ∅)
                  = map erase_ts (snapshot_loop clock 0 (snapshot_entries snapshot) [] ∅)
                ∧ snapshot_events normalized'
                  = sort by_ts (snapshot_loop clock' 0 (snapshot_entries snapshot) [] ∅)).
  { revert Hs. unfold normalizeSnapshot. destruct (_ || _); [discriminate|].
    intros [= <-]. eexists. split; [reflexivity|]. cbn [snapshot_channel snapshot_events].
    split; [apply Hres|]. split; [|reflexivity].
    now apply snapshot_loop_erased. }
  destruct Hs' as (normalized' & Hs' & Hch' & Herased & Hev').
  rewrite (importRoom_normalized app1 snapshot no_option clock' normalized' Hs')
    by discriminate.
  rewrite Hch'. fold c.
  change (get no_option "replace") with JUndefined. cbv iota.
  assert (Hroom : room_of app1 c = room3).
  { unfold room_of. now rewrite Hlookup. }
  assert (Hget : (getRoom app1 c).2 = app1).
  { unfold getRoom. now rewrite Hlookup. }
  rewrite Hroom, Hget.
  rewrite (import_loop_nothing (snapshot_events normalized') room3 0).
  2:{ intros e' He'. rewrite Hev' in He'. apply elem_of_sort in He'.
      apply (list_elem_of_fmap_2 erase_ts) in He'.
      change (erase_ts e' ∈ map erase_ts
                (snapshot_loop clock' 0 (snapshot_entries snapshot) [] ∅)) in He'.
      rewrite Herased in He'.
      apply (list_elem_of_fmap_1 erase_ts) in He' as (e & Heq & He).
      subst room3. cbn [txSeen].
      rewrite <- (txId_erase_ts e'), Heq, txId_erase_ts.
      apply Hseen. rewrite Hev. now apply elem_of_sort. }
  cbn [fst snd]. subst room3. cbn [events txSeen].
  rewrite (sort_idem by_ts by_ts_total).
  f_equal. subst app1. unfold put_room. cbn [rooms defaultChannel debug].
  unfold with_rooms. cbn [rooms defaultChannel debug].
  f_equal. rewrite (resolveChannel_default _ (getRoom app c).2) by reflexivity.
  apply insert_insert_eq.
Qed.

Lemma importRoom_again_adds_nothing_witness :
  (importRoom sample_trip sample_snapshot no_option (λ _, 0)).1 = ImportOk "trip" 1 3
  ∧ (importRoom (importRoom sample_trip sample_snapshot no_option (λ _, 0)).2
       sample_snapshot no_option (λ _, 7)).1 = ImportOk "trip" 0 3.
Proof.
  assert (H : (importRoom sample_trip sample_snapshot no_option (λ _, 0)).1
              = ImportOk "trip" 1 3) by (vm_compute; reflexivity).
  split; [exact H|].
  exact (f_equal fst (importRoom_again_adds_nothing _ _ _ _ (λ _, 7) _ _ _ H)).
Defined.

(** ** What a normalized snapshot keeps *)

Lemma elem_of_map_txId (l : list Event) id :
  id ∈ map txId l ↔ ∃ e, e ∈ l ∧ txId e = id.
Proof.
  change (map txId l) with (txId <$> l). rewrite list_elem_of_fmap.
  split; intros (e & H1 & H2); exists e; [now split | now split].
Qed.

Lemma snapshot_loop_distinct clock src : ∀ idx evs seen,
  NoDup (map txId evs) → (∀ e, e ∈ evs → txId e ∈ seen) →
  NoDup (map txId (snapshot_loop clock idx src evs seen)).
Proof.
  induction src as [|raw rest IH]; intros idx evs seen Hnd Hseen;
    cbn [snapshot_loop]; [exact Hnd|].
  destruct (normalizeEvent (clock idx) raw) as [e|]; [|now apply IH].
  destruct (bool_decide_reflect (txId e ∈ seen)) as [Hin | Hout]; [now apply IH|].
  apply IH.
  - rewrite map_app. cbn [map]. apply NoDup_app. split; [exact Hnd|]. split.
    + intros id Hid Hid'. apply list_elem_of_singleton in Hid'. subst id.
      apply elem_of_map_txId in Hid as (e0 & He0 & Heq).
      apply Hout. rewrite <- Heq. now apply Hseen.
    + apply NoDup_singleton.
  - intros e0 He0. apply elem_of_app in He0 as [He0 | He0].
    + apply elem_of_union. right. now apply Hseen.
    + apply list_elem_of_singleton in He0. subst e0.
      apply elem_of_union. left. now apply elem_of_singleton.
Qed.

Lemma snapshot_loop_origin clock src : ∀ idx evs seen e,
  e ∈ snapshot_loop clock idx src evs seen
  ↔ e ∈ evs
    ∨ ∃ i raw, src !! i = Some raw
        ∧ normalizeEvent (clock (idx + i)%nat) raw = Some e
        ∧ (txId e ∉ seen)
        ∧ ∀ j raw', (j < i)%nat → src !! j = Some raw' → valid_event raw' →
                    tx_of raw' ≠ txId e.
Proof.
  induction src as [|raw0 rest IH]; intros idx evs seen e; cbn [snapshot_loop].
  { split; [now left|]. intros [H | (i & raw & H & _)]; [exact H | discriminate]. }
  destruct (normalizeEvent (clock idx) raw0) as [e0|] eqn:H0.
  - assert (Hv0 : valid_event raw0).
    { apply (normalizeEvent_valid (clock idx)). rewrite H0. eauto. }
    assert (Hid0 : tx_of raw0 = txId e0).
    { symmetry. apply (normalizeEvent_Some _ _ _ H0). }
    destruct (bool_decide_reflect (txId e0 ∈ seen)) as [Hin | Hout].
    + rewrite IH. split.
      * intros [H | (i & raw & Hi & Hn & Hs & Hfirst)]; [now left|].
        right. exists (S i), raw. split; [exact Hi|].
        split; [now rewrite Nat.add_succ_r|]. split; [exact Hs|].
        intros [|j] raw' Hj Hraw' Hv'.
        -- injection Hraw' as <-. rewrite Hid0. intros Heq. apply Hs.
           now rewrite <- Heq.
        -- apply (Hfirst j raw'); [lia | exact Hraw' | exact Hv'].
      * intros [H | (i & raw & Hi & Hn & Hs & Hfirst)]; [now left|].
        destruct i as [|i].
        -- injection Hi as <-. rewrite Nat.add_0_r, H0 in Hn. injection Hn as <-.
           contradiction.
        -- right. exists i, raw. split; [exact Hi|].
           split; [now rewrite Nat.add_succ_r in Hn|]. split; [exact Hs|].
           intros j raw' Hj Hraw'. apply (Hfirst (S j) raw'); [lia | exact Hraw'].
    + rewrite IH. split.
      * intros [H | (i & raw & Hi & Hn & Hs & Hfirst)].
        -- apply elem_of_app in H as [H | H]; [now left|].
           apply list_elem_of_singleton in H. subst e.
           right. exists 0%nat, raw0. split; [reflexivity|].
           split; [now rewrite Nat.add_0_r|]. split; [exact Hout|].
           intros j raw' Hj. lia.
        -- right. exists (S i), raw. split; [exact Hi|].
           split; [now rewrite Nat.add_succ_r|].
           split; [intros Hs'; apply Hs, elem_of_union; now right|].
           intros [|j] raw' Hj Hraw' Hv'.
           ++ injection Hraw' as <-. rewrite Hid0. intros Heq. apply Hs.
              apply elem_of_union. left. now apply elem_of_singleton.
           ++ apply (Hfirst j raw'); [lia | exact Hraw' | exact Hv'].
      * intros [H | (i & raw & Hi & Hn & Hs & Hfirst)].
        -- left. apply elem_of_app. now left.
        -- destruct i as [|i].
           ++ injection Hi as <-. rewrite Nat.add_0_r, H0 in Hn. injection Hn as <-.
              left. apply elem_of_app. right. now apply list_elem_of_singleton.
           ++ right. exists i, raw. split; [exact Hi|].
              split; [now rewrite Nat.add_succ_r in Hn|]. split.
              ** intros Hs'. apply elem_of_union in Hs' as [Hs' | Hs']; [|contradiction].
                 apply elem_of_singleton in Hs'.
                 apply (Hfirst 0%nat raw0); [lia | reflexivity | exact Hv0|].
                 now rewrite Hid0.
              ** intros j raw' Hj Hraw'. apply (Hfirst (S j) raw'); [lia | exact Hraw'].
  - assert (Hv0 : ¬ valid_event raw0).
    { intros Hv. apply (normalizeEvent_valid (clock idx)) in Hv. rewrite H0 in Hv.
      now destruct Hv. }
    rewrite IH. split.
    + intros [H | (i & raw & Hi & Hn & Hs & Hfirst)]; [now left|].
      right. exists (S i), raw. split; [exact Hi|].
      split; [now rewrite Nat.add_succ_r|]. split; [exact Hs|].
      intros [|j] raw' Hj Hraw' Hv'.
      * injection Hraw' as <-. contradiction.
      * apply (Hfirst j raw'); [lia | exact Hraw' | exact Hv'].
    + intros [H | (i & raw & Hi & Hn & Hs & Hfirst)]; [now left|].
      destruct i as [|i].
      * injection Hi as <-. rewrite Nat.add_0_r, H0 in Hn. discriminate.
      * right. exists i, raw. split; [exact Hi|].
        split; [now rewrite Nat.add_succ_r in Hn|]. split; [exact Hs|].
        intros j raw' Hj Hraw'. apply (Hfirst (S j) raw'); [lia | exact Hraw'].
Qed.

(** X13.  A normalized snapshot keeps, of the entries of the snapshot,
    the normalization of every valid one that no earlier valid entry
    precedes with the same txId, and nothing else: its events have
    distinct txIds, are normalized and are sorted by [ts]; its channel is
    the room key of the snapshot's channel. *)
Theorem normalizeSnapshot_first_valid_entry_wins (app : t) (clock : nat → Z)
    (snapshot : JsVal) (normalized : Snapshot) :
  normalizeSnapshot app clock snapshot = Some normalized →
  snapshot_channel normalized = resolveChannel app (get snapshot "channel")
  ∧ NoDup (map txId (snapshot_events normalized))
  ∧ Forall normal_event (snapshot_events normalized)
  ∧ Sorted (before by_ts) (snapshot_events normalized)
  ∧ ∀ e, e ∈ snapshot_events normalized
         ↔ ∃ idx raw, snapshot_entries snapshot !! idx = Some raw
             ∧ normalizeEvent (clock idx) raw = Some e
             ∧ ∀ j raw', (j < idx)%nat → snapshot_entries snapshot !! j = Some raw' →
                         valid_event raw' → tx_of raw' ≠ txId e.
Proof.
  intros Hs. destruct (normalizeSnapshot_Some _ _ _ _ Hs) as [Hch Hev].
  pose proof (sort_Permutation by_ts
                (snapshot_loop clock 0 (snapshot_entries snapshot) [] ∅)) as P.
  rewrite Hev. split; [exact Hch|]. split.
  { rewrite (Permutation_map txId P).
    apply snapshot_loop_distinct; [constructor|].
    intros e He. now apply elem_of_nil in He. }
  split.
  { rewrite P. apply snapshot_loop_normal. constructor. }
  split; [apply (sort_Sorted by_ts by_ts_total)|].
  intros e. rewrite elem_of_sort, snapshot_loop_origin. split.
  - intros [H | (i & raw & Hi & Hn & _ & Hfirst)]; [now apply elem_of_nil in H|].
    exists i, raw. auto.
  - intros (i & raw & Hi & Hn & Hfirst). right. exists i, raw.
    split; [exact Hi|]. split; [exact Hn|]. split; [apply not_elem_of_empty|].
    exact Hfirst.
Qed.

Lemma normalizeSnapshot_first_valid_entry_wins_witness :
  ∃ normalized,
    normalizeSnapshot sample_trip (λ _, 0) sample_snapshot = Some normalized
    ∧ NoDup (map txId (snapshot_events normalized)).
Proof.
  eexists. split; [reflexivity|].
  exact (proj1 (proj2 (normalizeSnapshot_first_valid_entry_wins
                         sample_trip (λ _, 0) sample_snapshot _ eq_refl))).
Defined.

(** ** Messages from the sidechannel *)

Lemma addEvent_again_state app channel raw now1 now2 :
  (addEvent (addEvent app channel raw now1).2 channel raw now2).2
  = (addEvent app channel raw now1).2.
Proof.
  destruct (normalizeEvent now1 raw) as [e1|] eqn:H1.
  - assert (Hv : valid_event raw) by (apply (normalizeEvent_valid now1); rewrite H1; eauto).
    destruct (proj1 (normalizeEvent_valid now2 raw) Hv) as [e2 H2].
    assert (Hid : txId e2 = txId e1).
    { apply normalizeEvent_Some in H1, H2. destruct H1 as [-> _], H2 as [-> _].
      reflexivity. }
    destruct (addEvent_stored app channel raw now1 e1 H1) as (room & Hroom & Hin).
    rewrite <- (resolveChannel_default app (addEvent app channel raw now1).2 channel)
      in Hroom by apply addEvent_default.
    rewrite <- Hid in Hin.
    now rewrite (addEvent_duplicate _ channel raw now2 e2 room Hroom H2 Hin).
  - assert (H2 : normalizeEvent now2 raw = None).
    { destruct (normalizeEvent now2 raw) eqn:E; [|reflexivity].
      assert (Hv : valid_event raw) by (apply (normalizeEvent_valid now2); rewrite E; eauto).
      apply (normalizeEvent_valid now1) in Hv. rewrite H1 in Hv. now destruct Hv. }
    unfold addEvent. rewrite H1. cbn [fst snd]. now rewrite H2.
Qed.

(** X14.  What [handleSidechannelMessage] answers depends on the payload
    only, never on the ledger; a payload it does not handle leaves the
    ledger as it is; a handled one touches no room but the channel's, and
    handling it a second time changes nothing more.  After a handled
    [expense_clear] the room lists nothing. *)
Theorem handleSidechannelMessage_is_idempotent (app other : t)
    (channel payload : JsVal) (now1 now2 now3 : Z) :
  let first := handleSidechannelMessage app channel payload now1 in
  let second := handleSidechannelMessage first.2 channel payload now2 in
  second = first
  ∧ (handleSidechannelMessage other channel payload now3).1 = first.1
  ∧ (first.1 = false → first.2 = app)
  ∧ defaultChannel first.2 = defaultChannel app
  ∧ (∀ key, key ≠ resolveChannel app channel → rooms first.2 !! key = rooms app !! key)
  ∧ (first.1 = true →
     is_string (get (get payload "message") "type") "expense_clear" = true →
     list_events first.2 channel = []).
Proof.
  cbv zeta. unfold handleSidechannelMessage.
  set (message := get payload "message").
  destruct (negb (truthy message) || negb (typeof_object message)
            || negb (is_string (get message "app") APP_KEY)) eqn:Hhead.
  { cbn [fst snd]. repeat split; auto; discriminate. }
  destruct (is_string (get message "type") "expense_add") eqn:Hadd.
  { cbn [fst snd].
    assert (Hclear : is_string (get message "type") "expense_clear" = false).
    { destruct (get message "type"); try reflexivity. cbn in Hadd |- *.
      apply String.eqb_eq in Hadd. now subst. }
    split; [now rewrite addEvent_again_state|]. split; [reflexivity|].
    split; [discriminate|]. split; [apply addEvent_default|].
    split; [intros key Hkey; now apply addEvent_other|].
    intros _ H. rewrite Hclear in H. discriminate. }
  destruct (is_string (get message "type") "expense_clear") eqn:Hclear.
  { cbn [fst snd].
    split.
    { f_equal. unfold with_rooms. cbn [rooms defaultChannel debug].
      rewrite (resolveChannel_default app
                 {| defaultChannel := defaultChannel app; debug := debug app;
                    rooms := delete (resolveChannel app channel) (rooms app) |})
        by reflexivity.
      now rewrite delete_delete_eq. }
    split; [reflexivity|]. split; [discriminate|]. split; [reflexivity|].
    split.
    { intros key Hkey. cbn [rooms with_rooms]. apply lookup_delete_ne. congruence. }
    intros _ _. unfold list_events.
    rewrite (resolveChannel_default app (with_rooms app _)) by reflexivity.
    cbn [rooms with_rooms]. now rewrite lookup_delete_eq. }
  cbn [fst snd]. repeat split; auto; discriminate.
Qed.

(** ** The bridge and the terminal in front of the ledger *)

Lemma nonempty_length (s : string) : (0 < String.length s)%nat ↔ s ≠ EmptyString.
Proof. destruct s; cbn; split; intros H; try lia; congruence. Qed.

Lemma filter_nonempty (l : list string) :
  filter (λ m, (0 < String.length m)%nat) l = filter (λ m, m ≠ EmptyString) l.
Proof. apply list_filter_iff. intros m. apply nonempty_length. Qed.

Lemma lower_trim_normal (x : string) :
  toLowerCase (trim x) ≠ EmptyString → normal_member (toLowerCase (trim x)).
Proof.
  intros Hne. split; [exact Hne|].
  unfold normalizeMember. rewrite normalizeText_string.
  now rewrite trim_lower, trim_idem, toLowerCase_idem.
Qed.

Lemma bridge_parseMembers_candidates value :
  ScBridge.parseMembers value
  = filter (λ m, m ≠ EmptyString) (member_candidates value).
Proof. unfold ScBridge.parseMembers. rewrite filter_nonempty. reflexivity. Qed.

Lemma filter_normal (l : list string) :
  Forall normal_member l → filter (λ m, m ≠ EmptyString) l = l.
Proof.
  induction 1 as [|m l [Hne _] _ IH]; [reflexivity|].
  now rewrite filter_cons_True, IH.
Qed.

Lemma candidates_of_normal (l : list string) :
  Forall normal_member l → member_candidates (JArr (JStr <$> l)) = l.
Proof.
  unfold member_candidates.
  induction 1 as [|m l [_ Hm] _ IH]; [reflexivity|].
  cbn [fmap list_fmap] in *. now rewrite Hm, IH.
Qed.

Lemma bridge_parseMembers_normal value : Forall normal_member (ScBridge.parseMembers value).
Proof.
  rewrite bridge_parseMembers_candidates. apply Forall_forall. intros m Hm.
  apply list_elem_of_filter in Hm as [Hne Hm].
  unfold member_candidates in Hm. apply list_elem_of_fmap in Hm as (v & -> & _).
  now apply normalizeMember_normal.
Qed.

Lemma bridge_absorbs (l : list string) :
  Forall normal_member l → ScBridge.parseMembers (JArr (JStr <$> l)) = l.
Proof.
  intros Hl. rewrite bridge_parseMembers_candidates, candidates_of_normal by exact Hl.
  now apply filter_normal.
Qed.

Lemma ledger_absorbs (l : list string) :
  Forall normal_member l → parseMembers (JArr (JStr <$> l)) = first_occurrences l.
Proof.
  intros Hl. rewrite parseMembers_first, candidates_of_normal by exact Hl.
  now rewrite filter_normal.
Qed.

Lemma remove_dups_NoDup {A} `{EqDecision A} (l : list A) : NoDup l → remove_dups l = l.
Proof.
  induction 1 as [|x l Hx _ IH]; [reflexivity|]. cbn [remove_dups].
  destruct (decide_rel elem_of x l); [contradiction | now rewrite IH].
Qed.

Lemma first_occurrences_NoDup (l : list string) : NoDup l → first_occurrences l = l.
Proof.
  intros Hl. unfold first_occurrences.
  rewrite remove_dups_NoDup by now rewrite reverse_Permutation.
  apply reverse_involutive.
Qed.

Lemma first_occurrences_nil (l : list string) : first_occurrences l = [] ↔ l = [].
Proof.
  split; [|now intros ->].
  intros H. destruct l as [|x l]; [reflexivity|].
  assert (Hx : x ∈ first_occurrences (x :: l)) by (apply elem_of_first_occurrences; left).
  rewrite H in Hx. now apply elem_of_nil in Hx.
Qed.

(** X15.  The bridge's [parseMembers] and the ledger's agree: the ledger
    reads from the list the bridge hands to [addExpense] the members it
    would have read from the original value, namely the bridge's names
    with the repetitions after the first dropped; the bridge reports a
    missing split exactly when the ledger would, and reading the
    bridge's list again changes nothing. *)
Theorem bridge_members_feed_the_ledger (value : JsVal) :
  parseMembers (JArr (JStr <$> ScBridge.parseMembers value)) = parseMembers value
  ∧ parseMembers value = first_occurrences (ScBridge.parseMembers value)
  ∧ (ScBridge.parseMembers value = [] ↔ parseMembers value = [])
  ∧ ScBridge.parseMembers (JArr (JStr <$> ScBridge.parseMembers value))
    = ScBridge.parseMembers value
  ∧ (NoDup (ScBridge.parseMembers value) →
     parseMembers value = ScBridge.parseMembers value).
Proof.
  pose proof (bridge_parseMembers_normal value) as Hn.
  assert (Hfirst : parseMembers value = first_occurrences (ScBridge.parseMembers value)).
  { now rewrite parseMembers_first, bridge_parseMembers_candidates. }
  split; [now rewrite ledger_absorbs, Hfirst|]. split; [exact Hfirst|].
  split; [rewrite Hfirst; symmetry; apply first_occurrences_nil|].
  split; [now apply bridge_absorbs|].
  intros Hnd. rewrite Hfirst. now apply first_occurrences_NoDup.
Qed.

Lemma ui_parseMembersArg_normal raw : Forall normal_member (Ui.parseMembersArg raw).
Proof.
  assert (Harr : ∀ items,
    Forall normal_member
      (filter (λ value, (0 < String.length value)%nat)
         (map (λ value, toLowerCase (trim (toString (if truthy value then value
                                                     else JStr EmptyString))))
              items))).
  { intros items. apply Forall_forall. intros m Hm.
    apply list_elem_of_filter in Hm as [Hne Hm]. apply nonempty_length in Hne.
    change (m ∈ (λ value, toLowerCase (trim (toString (if truthy value then value
                                                       else JStr EmptyString))))
                <$> items) in Hm.
    apply list_elem_of_fmap in Hm as (v & -> & _). now apply lower_trim_normal. }
  assert (Hstr : ∀ pieces,
    Forall normal_member
      (filter (λ value, (0 < String.length value)%nat)
         (map (λ value, toLowerCase (trim value)) pieces))).
  { intros pieces. apply Forall_forall. intros m Hm.
    apply list_elem_of_filter in Hm as [Hne Hm]. apply nonempty_length in Hne.
    change (m ∈ (λ value, toLowerCase (trim value)) <$> pieces) in Hm.
    apply list_elem_of_fmap in Hm as (v & -> & _). now apply lower_trim_normal. }
  unfold Ui.parseMembersArg.
  destruct raw; try (destruct (negb _); [constructor | apply Hstr]). apply Harr.
Qed.

Lemma map_pieces (pieces : list string) :
  map (λ entry, toLowerCase (trim (toString (if truthy entry then entry
                                             else JStr EmptyString))))
      (map JStr pieces)
  = map (λ value, toLowerCase (trim value)) pieces.
Proof.
  induction pieces as [|x r IH]; [reflexivity|]. cbn [map]. rewrite IH. f_equal.
  now destruct x.
Qed.

(** X16.  The terminal's [parseMembersArg] reads an array or a string as
    the bridge's [parseMembers] does; the list it returns passes the
    bridge unchanged, and the ledger reads from it its names with the
    repetitions after the first dropped. *)
Theorem ui_members_agree_with_the_bridge (raw : JsVal) :
  ((∃ items, raw = JArr items) ∨ (∃ s, raw = JStr s) →
   Ui.parseMembersArg raw = ScBridge.parseMembers raw)
  ∧ ScBridge.parseMembers (JArr (JStr <$> Ui.parseMembersArg raw))
    = Ui.parseMembersArg raw
  ∧ parseMembers (JArr (JStr <$> Ui.parseMembersArg raw))
    = first_occurrences (Ui.parseMembersArg raw)
  ∧ (Ui.parseMembersArg raw = [] ↔
     parseMembers (JArr (JStr <$> Ui.parseMembersArg raw)) = []).
Proof.
  pose proof (ui_parseMembersArg_normal raw) as Hn.
  split.
  { intros [[items ->] | [s ->]]; [reflexivity|].
    unfold Ui.parseMembersArg, ScBridge.parseMembers. rewrite map_pieces.
    destruct s as [|a r]; reflexivity. }
  split; [now apply bridge_absorbs|].
  split; [now apply ledger_absorbs|].
  rewrite ledger_absorbs by exact Hn. symmetry. apply first_occurrences_nil.
Qed.

Lemma request_channel_key app message :
  wf app → ScBridge.request_channel app message ≠ EmptyString →
  ScBridge.request_channel app message = resolveChannel app (get message "channel").
Proof.
  intros (Hne & Ht & _). unfold ScBridge.request_channel, resolveChannel, normalizeText.
  destruct (truthy (get message "channel")) eqn:Htruthy.
  - intros H. apply String.eqb_neq in H. now rewrite H.
  - intros _. change (trim (toString (JStr EmptyString))) with EmptyString.
    cbn [String.eqb].
    assert (Hd : truthy (JStr (defaultChannel app)) = true).
    { cbn [truthy]. destruct (defaultChannel app); [contradiction | reflexivity]. }
    rewrite Hd. exact Ht.
Qed.

Lemma request_channel_room app message :
  ScBridge.request_channel app message ≠ EmptyString →
  resolveChannel app (JStr (ScBridge.request_channel app message))
  = ScBridge.request_channel app message.
Proof.
  intros Hne. apply resolveChannel_trimmed; [exact Hne|].
  unfold ScBridge.request_channel. apply trim_idem.
Qed.

(** X17.  A bridge request that names a channel is answered from the
    ledger room of that channel: [expense_list] replies the room key, the
    events [list] returns and their number, [expense_balance] the
    [summary], and [expense_clear] clears that room;
    [expense_list] and [expense_balance] leave the ledger as it is. *)
Theorem bridge_requests_reach_the_ledger_room
    (localeCompare : string → string → comparison) (app : t) (message : JsVal) :
  wf app → ScBridge.request_channel app message ≠ EmptyString →
  let channel := get message "channel" in
  ScBridge.request_channel app message = resolveChannel app channel
  ∧ ScBridge.expense_list (Some app) message
    = (ScBridge.ExpenseList (resolveChannel app channel)
         (length (list_events app channel)) (list_events app channel), Some app)
  ∧ ScBridge.expense_balance localeCompare (Some app) message
    = (ScBridge.ExpenseBalance (summary localeCompare app channel), Some app)
  ∧ ScBridge.expense_clear (Some app) message
    = (ScBridge.ExpenseCleared (resolveChannel app channel) true,
       Some (clearChannel app channel).2).
Proof.
  intros Hwf Hne. cbv zeta.
  pose proof (request_channel_key app message Hwf Hne) as Hkey.
  pose proof (request_channel_room app message Hne) as Hroom.
  pose proof (same_key_same_operations app
                (JStr (ScBridge.request_channel app message)) (get message "channel"))
    as Hsame.
  rewrite Hroom in Hsame. specialize (Hsame Hkey).
  destruct Hsame as (_ & Hlist & _ & _ & Hsummary & Hclear & _).
  apply String.eqb_neq in Hne.
  split; [exact Hkey|].
  unfold ScBridge.expense_list, ScBridge.expense_balance, ScBridge.expense_clear.
  rewrite Hne, Hlist, Hsummary, Hclear, <- Hkey.
  repeat split. unfold clearChannel. cbn [fst snd]. now rewrite Hkey.
Qed.

Lemma bridge_requests_reach_the_ledger_room_witness :
  wf sample_trip
  ∧ ScBridge.request_channel sample_trip (JObj [("channel", JStr " trip ")]) ≠ EmptyString
  ∧ ScBridge.request_channel sample_trip (JObj [("channel", JStr " trip ")])
    = resolveChannel sample_trip (JStr " trip ").
Proof.
  assert (H : ScBridge.request_channel sample_trip (JObj [("channel", JStr " trip ")])
              ≠ EmptyString) by (vm_compute; discriminate).
  split; [exact sample_trip_wf|]. split; [exact H|].
  exact (proj1 (bridge_requests_reach_the_ledger_room code_unit_order sample_trip
                  (JObj [("channel", JStr " trip ")]) sample_trip_wf H)).
Defined.

(** X18.  The bridge refuses what the ledger would take for the default
    channel: a channel that is truthy but blank once trimmed is answered
    with 'Missing channel.' by every expense request, the ledger
    untouched, although [resolveChannel] maps it to the default channel;
    and only such a channel is refused. *)
Theorem bridge_refuses_a_blank_channel
    (localeCompare : string → string → comparison) (app : t) (message : JsVal) :
  wf app →
  let channel := get message "channel" in
  (ScBridge.request_channel app message = EmptyString
   ↔ truthy channel = true ∧ normalizeText channel = EmptyString)
  ∧ (ScBridge.request_channel app message = EmptyString →
     resolveChannel app channel = defaultChannel app
     ∧ ScBridge.expense_list (Some app) message
       = (ScBridge.ReplyError "Missing channel.", Some app)
     ∧ ScBridge.expense_balance localeCompare (Some app) message
       = (ScBridge.ReplyError "Missing channel.", Some app)
     ∧ ScBridge.expense_clear (Some app) message
       = (ScBridge.ReplyError "Missing channel.", Some app)
     ∧ ScBridge.persist_command app message = None).
Proof.
  intros (Hne & Ht & _). cbv zeta.
  assert (Hiff : ScBridge.request_channel app message = EmptyString
                 ↔ truthy (get message "channel") = true
                   ∧ normalizeText (get message "channel") = EmptyString).
  { unfold ScBridge.request_channel, normalizeText.
    destruct (truthy (get message "channel")) eqn:Htruthy.
    - split; [now split | now intros [_ H]].
    - assert (Hd : truthy (JStr (defaultChannel app)) = true).
      { cbn [truthy]. destruct (defaultChannel app); [contradiction | reflexivity]. }
      rewrite Hd. cbn [toString]. rewrite Ht.
      split; [contradiction | now intros [H _]]. }
  split; [exact Hiff|].
  intros Hempty. destruct (proj1 Hiff Hempty) as [_ Hblank].
  unfold ScBridge.expense_list, ScBridge.expense_balance, ScBridge.expense_clear,
    ScBridge.persist_command, ScBridge.storage_channel, resolveChannel.
  rewrite Hempty, Hblank. repeat split.
Qed.

Lemma bridge_refuses_a_blank_channel_witness :
  wf sample_trip
  ∧ ScBridge.expense_list (Some sample_trip) (JObj [("channel", JStr "  ")])
    = (ScBridge.ReplyError "Missing channel.", Some sample_trip).
Proof.
  split; [exact sample_trip_wf|].
  refine (proj1 (proj2 (proj2 (bridge_refuses_a_blank_channel code_unit_order sample_trip
                                 (JObj [("channel", JStr "  ")]) sample_trip_wf) _))).
  vm_compute. reflexivity.
Defined.

(** X19.  After the bridge has cleared a channel, the same request to
    [expense_list] replies that channel with no event. *)
Theorem bridge_clear_then_list (app after : t) (message : JsVal)
    (channel : string) (ok : bool) :
  ScBridge.expense_clear (Some app) message
  = (ScBridge.ExpenseCleared channel ok, Some after) →
  ok = true
  ∧ channel = ScBridge.request_channel app message
  ∧ rooms after !! channel = None
  ∧ ScBridge.expense_list (Some after) message
    = (ScBridge.ExpenseList channel 0 [], Some after).
Proof.
  unfold ScBridge.expense_clear.
  destruct (String.eqb_spec (ScBridge.request_channel app message) EmptyString)
    as [E | Hne]; [discriminate|].
  unfold clearChannel. rewrite (request_channel_room app message Hne).
  intros [= <- <- <-].
  split; [reflexivity|]. split; [reflexivity|].
  split; [cbn [rooms with_rooms]; apply lookup_delete_eq|].
  unfold ScBridge.expense_list.
  change (ScBridge.request_channel (with_rooms app _) message)
    with (ScBridge.request_channel app message).
  apply String.eqb_neq in Hne. rewrite Hne.
  unfold list_events.
  rewrite (resolveChannel_default app (with_rooms app _)) by reflexivity.
  apply String.eqb_neq in Hne.
  rewrite (request_channel_room app message Hne).
  cbn [rooms with_rooms]. now rewrite lookup_delete_eq.
Qed.

Lemma bridge_clear_then_list_witness :
  ScBridge.expense_list
    (Some (clearChannel sample_trip (JStr "trip")).2) (JObj [("channel", JStr "trip")])
  = (ScBridge.ExpenseList "trip" 0 [], Some (clearChannel sample_trip (JStr "trip")).2).
Proof.
  refine (proj2 (proj2 (proj2 (bridge_clear_then_list sample_trip _
                                 (JObj [("channel", JStr "trip")]) "trip" true _)))).
  vm_compute. reflexivity.
Defined.

Lemma lower_trim_fixed (x : string) :
  trim (toLowerCase (trim x)) = toLowerCase (trim x).
Proof. now rewrite trim_lower, trim_idem. Qed.

(** X20.  [expense_persist] exports the room of the lower-cased channel:
    the snapshot it hands to the protocol carries that channel and the
    events [list] returns for it.  For a channel without capital letters
    these are the events [expense_list] replies; when the ledger has no
    room under the lower-cased name the snapshot is empty, whatever the
    room of the channel as written holds. *)
Theorem persist_exports_the_lower_cased_room (app : t) (message : JsVal)
    (channel : string) (snapshot : JsVal) :
  ScBridge.persist_command app message = Some (channel, snapshot) →
  channel = toLowerCase (ScBridge.request_channel app message)
  ∧ resolveChannel app (JStr channel) = channel
  ∧ get snapshot "channel" = JStr channel
  ∧ get snapshot "events" = JArr (map event_object (list_events app (JStr channel)))
  ∧ (wf app → channel = ScBridge.request_channel app message →
     list_events app (JStr channel) = list_events app (get message "channel"))
  ∧ (rooms app !! channel = None → get snapshot "events" = JArr []).
Proof.
  unfold ScBridge.persist_command, ScBridge.storage_channel.
  destruct (String.eqb_spec (toLowerCase (ScBridge.request_channel app message))
              EmptyString) as [E | Hne]; [discriminate|].
  intros [= <- <-].
  assert (Hroom : resolveChannel app
                    (JStr (toLowerCase (ScBridge.request_channel app message)))
                  = toLowerCase (ScBridge.request_channel app message)).
  { apply resolveChannel_trimmed; [exact Hne|].
    unfold ScBridge.request_channel. apply lower_trim_fixed. }
  split; [reflexivity|]. split; [exact Hroom|].
  unfold exportRoom. rewrite Hroom.
  split; [reflexivity|]. split; [reflexivity|]. split.
  - intros Hwf Heq. rewrite Heq in Hne |- *.
    apply list_events_key. rewrite (request_channel_room app message Hne).
    now apply request_channel_key.
  - intros Hnone. change (get (JObj _) "events")
      with (JArr (map event_object
                    (list_events app
                       (JStr (toLowerCase (ScBridge.request_channel app message)))))).
    unfold list_events. now rewrite Hroom, Hnone.
Qed.

Lemma persist_exports_the_lower_cased_room_witness :
  length (list_events ScBridge.sample_capital (JStr "Trip")) = 1%nat
  ∧ ∃ snapshot,
      ScBridge.persist_command ScBridge.sample_capital (JObj [("channel", JStr "Trip")])
      = Some ("trip", snapshot)
      ∧ get snapshot "events" = JArr [].
Proof.
  split; [vm_compute; reflexivity|].
  eexists. split; [vm_compute; reflexivity|].
  refine (proj2 (proj2 (proj2 (proj2 (proj2
    (persist_exports_the_lower_cased_room ScBridge.sample_capital
       (JObj [("channel", JStr "Trip")]) "trip" _ _))))) _).
  - vm_compute. reflexivity.
  - vm_compute. reflexivity.
Defined.

(** X21.  [parseBoolFlag] falls back only on [undefined], [null] and the
    empty string; on any other value the fallback plays no part: a
    boolean reads as itself, and a string reads as its trimmed,
    lower-cased form, so that a string of spaces is [false] even when the
    fallback is [true]. *)
Theorem parseBoolFlag_falls_back_only_when_absent (value : JsVal) (fallback : bool) :
  (value = JUndefined ∨ value = JNull ∨ value = JStr EmptyString →
   ScBridge.parseBoolFlag value fallback = fallback)
  ∧ (value ≠ JUndefined → value ≠ JNull → value ≠ JStr EmptyString →
     ScBridge.parseBoolFlag value fallback = ScBridge.parseBoolFlag value (negb fallback))
  ∧ (∀ b, ScBridge.parseBoolFlag (JBool b) fallback = b)
  ∧ (∀ s, s ≠ EmptyString →
     ScBridge.parseBoolFlag (JStr s) fallback
     = ScBridge.parseBoolFlag (JStr (toLowerCase (trim s))) false)
  ∧ (∀ s, s ≠ EmptyString → trim s = EmptyString →
     ScBridge.parseBoolFlag (JStr s) fallback = false).
Proof.
  split; [intros [-> | [-> | ->]]; reflexivity|]. split.
  { intros H1 H2 H3. unfold ScBridge.parseBoolFlag.
    destruct value as [| | | |s| |]; try reflexivity; try contradiction.
    destruct (String.eqb_spec s EmptyString) as [-> | _]; [contradiction | reflexivity]. }
  split; [intros []; reflexivity|]. split.
  - intros s Hs. unfold ScBridge.parseBoolFlag.
    apply String.eqb_neq in Hs. rewrite Hs. cbn [toString].
    destruct (String.eqb_spec (toLowerCase (trim s)) EmptyString) as [E | _].
    + rewrite E. reflexivity.
    + now rewrite lower_trim_fixed, toLowerCase_idem.
  - intros s Hs Ht. unfold ScBridge.parseBoolFlag.
    apply String.eqb_neq in Hs. rewrite Hs. cbn [toString]. rewrite Ht. reflexivity.
Qed.

(** X22.  The terminal's [normalizeChannel] gives a name that is its own
    room key in the ledger, so the room it exports carries that name; it
    is the name the bridge persists under for the same channel, and
    normalizing it again changes nothing. *)
Theorem ui_channel_names_its_own_room (app : t) (value : JsVal) :
  Ui.normalizeChannel value ≠ EmptyString →
  resolveChannel app (JStr (Ui.normalizeChannel value)) = Ui.normalizeChannel value
  ∧ get (exportRoom app (JStr (Ui.normalizeChannel value))) "channel"
    = JStr (Ui.normalizeChannel value)
  ∧ Ui.normalizeChannel (JStr (Ui.normalizeChannel value)) = Ui.normalizeChannel value
  ∧ Ui.normalizeChannel value = toLowerCase (resolveChannel app value)
  ∧ ScBridge.storage_channel app (JObj [("channel", value)]) = Ui.normalizeChannel value.
Proof.
  intros Hne.
  assert (Htruthy : truthy value = true).
  { destruct (truthy value) eqn:E; [reflexivity|]. exfalso. apply Hne.
    unfold Ui.normalizeChannel. now rewrite E. }
  assert (Hroom : resolveChannel app (JStr (Ui.normalizeChannel value))
                  = Ui.normalizeChannel value).
  { apply resolveChannel_trimmed; [exact Hne|]. apply lower_trim_fixed. }
  split; [exact Hroom|]. split.
  { unfold exportRoom. rewrite Hroom. reflexivity. }
  split.
  { unfold Ui.normalizeChannel at 1. cbn [truthy].
    apply String.eqb_neq in Hne. rewrite Hne. cbn [negb toString].
    unfold Ui.normalizeChannel. now rewrite lower_trim_fixed, toLowerCase_idem. }
  split.
  { unfold resolveChannel, normalizeText, Ui.normalizeChannel in *.
    destruct (String.eqb_spec
                (trim (toString (if truthy value then value else JStr EmptyString)))
                EmptyString) as [E | _]; [|reflexivity].
    rewrite E in Hne. now destruct Hne. }
  unfold ScBridge.storage_channel, ScBridge.request_channel, Ui.normalizeChannel.
  change (get (JObj [("channel", value)]) "channel") with value.
  now rewrite Htruthy.
Qed.

Lemma ui_channel_names_its_own_room_witness :
  Ui.normalizeChannel (JStr " Trip ") ≠ EmptyString
  ∧ resolveChannel sample_trip (JStr (Ui.normalizeChannel (JStr " Trip ")))
    = Ui.normalizeChannel (JStr " Trip ").
Proof.
  assert (H : Ui.normalizeChannel (JStr " Trip ") ≠ EmptyString)
    by (vm_compute; discriminate).
  split; [exact H|].
  exact (proj1 (ui_channel_names_its_own_room sample_trip (JStr " Trip ") H)).
Defined.

(** ** The message filter of the bridge *)

Lemma lower_char_separator a :
  ScBridge.is_separator (lower_char a) = ScBridge.is_separator a.
Proof. by_char a. Qed.

Lemma lower_char_bar a : (code (lower_char a) =? 124)%N = (code a =? 124)%N.
Proof. by_char a. Qed.

Lemma split_at_lower c s :
  (∀ a, (code (lower_char a) =? c)%N = (code a =? c)%N) →
  ScBridge.split_at c (toLowerCase s) = map toLowerCase (ScBridge.split_at c s).
Proof.
  intros Hc. induction s as [|a r IH]; [reflexivity|].
  cbn [toLowerCase ScBridge.split_at]. rewrite Hc, IH.
  destruct (code a =? c)%N; [reflexivity|].
  now destruct (ScBridge.split_at c r).
Qed.

Lemma split_runs_lower s : ∀ inside,
  ScBridge.split_runs inside (toLowerCase s)
  = map toLowerCase (ScBridge.split_runs inside s).
Proof.
  induction s as [|a r IH]; intros inside; [reflexivity|].
  cbn [toLowerCase ScBridge.split_runs]. rewrite lower_char_separator, !IH.
  destruct (ScBridge.is_separator a); [now destruct inside|].
  now destruct (ScBridge.split_runs false r).
Qed.

Lemma length_lower s : String.length (toLowerCase s) = String.length s.
Proof. induction s as [|a r IH]; [reflexivity|]. cbn. now rewrite IH. Qed.

Lemma filter_nonempty_lower (l : list string) :
  filter (λ word, (0 < String.length word)%nat) (map toLowerCase l)
  = map toLowerCase (filter (λ word, (0 < String.length word)%nat) l).
Proof.
  induction l as [|x l IH]; [reflexivity|]. cbn [map]. rewrite !filter_cons, IH.
  rewrite length_lower. now destruct (decide _).
Qed.

Lemma every_char_trimStart P s :
  ScBridge.every_char P s → ScBridge.every_char P (trimStart s).
Proof.
  unfold ScBridge.every_char. induction s as [|a r IH]; intros H; [exact H|].
  cbn [trimStart]. destruct (is_white a); [|exact H].
  apply IH. cbn [list_ascii_of_string] in H. now apply Forall_cons in H as [_ H].
Qed.

Lemma every_char_trimEnd P s :
  ScBridge.every_char P s → ScBridge.every_char P (trimEnd s).
Proof.
  unfold ScBridge.every_char. induction s as [|a r IH]; intros H; [exact H|].
  cbn [list_ascii_of_string] in H. apply Forall_cons in H as [Ha Hr].
  specialize (IH Hr). cbn [trimEnd].
  destruct (trimEnd r) as [|b r'].
  - destruct (is_white a); [constructor|]. cbn. now repeat constructor.
  - cbn [list_ascii_of_string]. now constructor.
Qed.

Lemma every_char_trim P s : ScBridge.every_char P s → ScBridge.every_char P (trim s).
Proof. intros H. unfold trim. now apply every_char_trimEnd, every_char_trimStart. Qed.

Lemma every_char_lower (P Q : ascii → Prop) s :
  (∀ a, P a → Q (lower_char a)) →
  ScBridge.every_char P s → ScBridge.every_char Q (toLowerCase s).
Proof.
  intros HPQ. unfold ScBridge.every_char.
  induction s as [|a r IH]; intros H; [constructor|].
  cbn [list_ascii_of_string toLowerCase] in *. apply Forall_cons in H as [Ha Hr].
  constructor; auto.
Qed.

Lemma split_at_clean c s :
  Forall (ScBridge.every_char (λ a, code a ≠ c)) (ScBridge.split_at c s).
Proof.
  induction s as [|a r IH]; cbn [ScBridge.split_at].
  - repeat constructor.
  - destruct (N.eqb_spec (code a) c) as [E | Hne].
    + constructor; [constructor | exact IH].
    + destruct (ScBridge.split_at c r) as [|h t].
      * repeat constructor. exact Hne.
      * apply Forall_cons in IH as [Hh Ht]. constructor; [|exact Ht].
        unfold ScBridge.every_char. cbn [list_ascii_of_string]. now constructor.
Qed.

Lemma split_runs_clean s : ∀ inside,
  Forall (ScBridge.every_char (λ a, ScBridge.is_separator a = false))
    (ScBridge.split_runs inside s).
Proof.
  induction s as [|a r IH]; intros inside; cbn [ScBridge.split_runs].
  - repeat constructor.
  - destruct (ScBridge.is_separator a) eqn:E.
    + destruct inside; [apply IH|]. constructor; [constructor | apply IH].
    + specialize (IH false). destruct (ScBridge.split_runs false r) as [|h t].
      * repeat constructor. exact E.
      * apply Forall_cons in IH as [Hh Ht]. constructor; [|exact Ht].
        unfold ScBridge.every_char. cbn [list_ascii_of_string]. now constructor.
Qed.

Lemma split_runs_chars P s :
  ScBridge.every_char P s →
  ∀ inside, Forall (ScBridge.every_char P) (ScBridge.split_runs inside s).
Proof.
  unfold ScBridge.every_char at 1.
  induction s as [|a r IH]; intros H inside; cbn [ScBridge.split_runs].
  - repeat constructor.
  - cbn [list_ascii_of_string] in H. apply Forall_cons in H as [Ha Hr].
    destruct (ScBridge.is_separator a).
    + destruct inside; [now apply IH|]. constructor; [constructor | now apply IH].
    + specialize (IH Hr false). destruct (ScBridge.split_runs false r) as [|h t].
      * repeat constructor. exact Ha.
      * apply Forall_cons in IH as [Hh Ht]. constructor; [|exact Ht].
        unfold ScBridge.every_char. cbn [list_ascii_of_string]. now constructor.
Qed.

(** X23.  The filter [parseFilter] builds is clean: no alternative is
    empty, and every word is non-empty, in lower case and free of the
    separators (the bar, the plus, the comma and white space); a falsy
    value gives the empty filter. *)
Theorem parseFilter_gives_clean_words (raw : JsVal) :
  Forall (λ group,
            group ≠ []
            ∧ Forall (λ word,
                        word ≠ EmptyString ∧ toLowerCase word = word
                        ∧ ScBridge.every_char
                            (λ a, ScBridge.is_separator a = false ∧ code a ≠ 124%N)
                            word)
                group)
    (ScBridge.parseFilter raw)
  ∧ (truthy raw = false → ScBridge.parseFilter raw = []).
Proof.
  unfold ScBridge.parseFilter. split; [|now intros ->].
  destruct (truthy raw); [|constructor]. cbn [negb].
  apply Forall_forall. intros group Hgroup.
  apply list_elem_of_filter in Hgroup as [Hlen Hgroup].
  split; [intros ->; cbn in Hlen; lia|].
  change (group ∈ (λ group,
            map toLowerCase
              (filter (λ word, (0 < String.length word)%nat)
                 (map trim (ScBridge.split_runs false (trim group)))))
          <$> ScBridge.split_at 124 (toString raw)) in Hgroup.
  apply list_elem_of_fmap in Hgroup as (g & -> & Hg).
  apply Forall_forall. intros word Hword.
  change (word ∈ toLowerCase
            <$> filter (λ word, (0 < String.length word)%nat)
                  (trim <$> ScBridge.split_runs false (trim g))) in Hword.
  apply list_elem_of_fmap in Hword as (w & -> & Hw).
  apply list_elem_of_filter in Hw as [Hne Hw].
  apply list_elem_of_fmap in Hw as (p & -> & Hp).
  split.
  { intros E. apply (f_equal String.length) in E. rewrite length_lower in E.
    cbn in E. lia. }
  split; [apply toLowerCase_idem|].
  assert (Hbar : ScBridge.every_char (λ a, code a ≠ 124%N) p).
  { pose proof (split_at_clean 124 (toString raw)) as Hclean.
    rewrite Forall_forall in Hclean. specialize (Hclean g Hg).
    pose proof (split_runs_chars _ _ (every_char_trim _ _ Hclean) false) as Hpieces.
    rewrite Forall_forall in Hpieces. now apply Hpieces. }
  assert (Hsep : ScBridge.every_char (λ a, ScBridge.is_separator a = false) p).
  { pose proof (split_runs_clean (trim g) false) as Hpieces.
    rewrite Forall_forall in Hpieces. now apply Hpieces. }
  apply (every_char_lower
           (λ a, ScBridge.is_separator a = false ∧ code a ≠ 124%N)).
  { intros a [H1 H2]. rewrite lower_char_separator. split; [exact H1|].
    intros E. apply N.eqb_eq in E. rewrite lower_char_bar in E.
    now apply N.eqb_eq in E. }
  apply every_char_trim. unfold ScBridge.every_char in *.
  rewrite Forall_forall in *. intros a Ha. split; auto.
Qed.

(** X24.  The filter does not see letter case: [parseFilter] builds the
    same filter from a string and from its lower-cased form. *)
Theorem parseFilter_ignores_letter_case (s : string) :
  ScBridge.parseFilter (JStr (toLowerCase s)) = ScBridge.parseFilter (JStr s).
Proof.
  unfold ScBridge.parseFilter. destruct s as [|a r]; [reflexivity|].
  change (truthy (JStr (toLowerCase (String a r)))) with true.
  change (truthy (JStr (String a r))) with true. cbn [negb toString].
  rewrite (split_at_lower 124) by apply lower_char_bar.
  f_equal. rewrite map_map. apply map_ext. intros g.
  rewrite trim_lower, split_runs_lower, map_map.
  rewrite (map_ext (λ x, trim (toLowerCase x)) (λ x, toLowerCase (trim x)))
    by (intros; apply trim_lower).
  rewrite <- (map_map trim toLowerCase), filter_nonempty_lower, map_map.
  apply map_ext. intros w. apply toLowerCase_idem.
Qed.

Lemma starts_with_spec w : ∀ s,
  ScBridge.starts_with w s = true ↔ ∃ post, s = w +:+ post.
Proof.
  induction w as [|a w IH]; intros s; cbn [ScBridge.starts_with].
  - split; [intros _; now exists s | reflexivity].
  - destruct s as [|b s].
    + split; [discriminate | intros [post H]; discriminate].
    + rewrite andb_true_iff, IH, Ascii.eqb_eq. split.
      * intros [-> [post ->]]. now exists post.
      * intros [post H]. injection H as -> ->. split; [reflexivity | now exists post].
Qed.

Lemma includes_spec s w :
  ScBridge.includes s w = true ↔ ∃ pre post, s = pre +:+ w +:+ post.
Proof.
  induction s as [|a r IH]; cbn [ScBridge.includes]; rewrite orb_true_iff, starts_with_spec.
  - split.
    + intros [[post H] | H]; [now exists EmptyString, post | discriminate].
    + intros ([|b pre] & post & H); [left; now exists post | discriminate].
  - rewrite IH. split.
    + intros [[post H] | (pre & post & H)]; [now exists EmptyString, post|].
      exists (String a pre), post. cbn. now rewrite H.
    + intros ([|b pre] & post & H); [left; now exists post|].
      right. injection H as -> ->. now exists pre, post.
Qed.

(** X25.  [matchesFilter] lets a text pass exactly when the filter is
    empty or one of its alternatives has all its words in the lower-cased
    text; so the letter case of the text plays no part, and adding
    alternatives to a filter that is not empty never hides a text. *)
Theorem matchesFilter_is_an_or_of_ands (filter : list (list string)) (text : string) :
  (ScBridge.matchesFilter filter text = true
   ↔ filter = []
     ∨ ∃ group, group ∈ filter
         ∧ ∀ word, word ∈ group →
                   ∃ pre post, toLowerCase text = pre +:+ word +:+ post)
  ∧ ScBridge.matchesFilter filter (toLowerCase text) = ScBridge.matchesFilter filter text
  ∧ (∀ more, filter ≠ [] → ScBridge.matchesFilter filter text = true →
             ScBridge.matchesFilter (filter ++ more) text = true).
Proof.
  assert (Hsome : ∀ groups haystack,
    existsb (λ group, forallb (λ word, ScBridge.includes haystack word) group) groups
    = true
    ↔ ∃ group, group ∈ groups
        ∧ ∀ word, word ∈ group → ∃ pre post, haystack = pre +:+ word +:+ post).
  { intros groups haystack. rewrite existsb_exists. split.
    - intros (group & Hin & Hall). exists group. split; [now apply list_elem_of_In|].
      intros word Hword. apply includes_spec.
      rewrite forallb_forall in Hall. now apply Hall, list_elem_of_In.
    - intros (group & Hin & Hall). exists group. split; [now apply list_elem_of_In|].
      apply forallb_forall. intros word Hword. apply includes_spec.
      now apply Hall, list_elem_of_In. }
  split; [|split].
  - destruct filter as [|g rest]; [split; [now left | reflexivity]|].
    unfold ScBridge.matchesFilter. rewrite Hsome. split; [now right|].
    intros [H | H]; [discriminate | exact H].
  - unfold ScBridge.matchesFilter. now rewrite toLowerCase_idem.
  - intros more Hne H. destruct filter as [|g rest]; [contradiction|].
    unfold ScBridge.matchesFilter in *. cbn [app]. rewrite Hsome in *.
    destruct H as (group & Hin & Hall). exists group. split; [|exact Hall].
    change (g :: rest ++ more) with ((g :: rest) ++ more).
    apply elem_of_app. now left.
Qed.

End LedgerFacts.
